(** * XBookmarkDownloader: the bookmark exporter, embedded and verified

    A shallow embedding of [twitter_bookmark_exporter.py]: the record
    model ([Tweet]), the post extractor ([_parse_tweet_element]), the
    collection loop ([_collect_all_bookmarks]) and the serializer
    ([_save_to_markdown], [_write_tweet_to_markdown]).

    Text is modelled as [string] (a sequence of bytes).  Cutting and
    searching at ASCII separators is the same on bytes as on Python's
    code points; the white space of [str.strip] and the class [\w] are
    modelled on ASCII characters only, and the statements that depend
    on them are made for ASCII text ([is_ascii]).

    The page driver is modelled by the answers it gives to the locator
    queries the code issues.  A driver call may also raise: an article
    carries, besides the answers, whether a call raises while it is
    parsed (the extractor then returns no result), and an observation
    of the page carries the call of the loop body that raises in that
    pass, if one does (the run then ends with the exception).  File
    operations are taken to succeed. *)

From Stdlib Require Import ZArith Ascii String DecimalString DecimalNat.
From stdpp Require Import base decidable option list sorting strings gmap.

#[local] Set Warnings "-clear-no-such-hyp".
Local Open Scope Z_scope.

(* ================================================================= *)
(** ** Python string primitives used by the exporter *)

Module Str.

(** [s[n:]] *)
Fixpoint drop (n : nat) (s : string) : string :=
  match n, s with
  | O, _ => s
  | S n', String _ s' => drop n' s'
  | S _, EmptyString => EmptyString
  end.

(** [s[:n]] *)
Definition take (n : nat) (s : string) : string := String.substring 0 n s.

(** [s.find(sep)], returned as the text before and the text after the
    first occurrence of [sep]. *)
Fixpoint find (sep s : string) : option (string * string) :=
  if String.prefix sep s then Some (EmptyString, drop (String.length sep) s)
  else match s with
       | EmptyString => None
       | String c s' =>
           match find sep s' with
           | Some (b, a) => Some (String c b, a)
           | None => None
           end
       end.

(** [sub in s] *)
Definition contains (sub s : string) : bool :=
  match find sub s with Some _ => true | None => false end.

(** [s.split(sep)] for a non-empty [sep]: pieces are cut at the
    successive occurrences found scanning left to right, an occurrence
    starting only after the previous one ended.  Every cut consumes at
    least one character, so [String.length s] rounds are enough. *)
Fixpoint split_fuel (fuel : nat) (sep s : string) : list string :=
  match fuel with
  | O => [s]
  | S fuel' =>
      match find sep s with
      | None => [s]
      | Some (b, a) => b :: split_fuel fuel' sep a
      end
  end.

Definition split (sep s : string) : list string :=
  split_fuel (String.length s) sep s.

(** [l[0]] and [l[-1]] on the (never empty) result of a split. *)
Definition first (l : list string) : string := default EmptyString (head l).
Definition final (l : list string) : string := default EmptyString (last l).

(** White space as [str.strip] sees it among the ASCII characters.
    Python also strips white space beyond ASCII (U+0085, U+00A0,
    U+2003, ...), which this byte model does not know: [strip] is
    [str.strip] on ASCII text. *)
Definition is_space (c : ascii) : bool :=
  let n := nat_of_ascii c in
  ((9 <=? n) && (n <=? 13) || (28 <=? n) && (n <=? 32))%nat.

Fixpoint lstrip (s : string) : string :=
  match s with
  | String c s' => if is_space c then lstrip s' else s
  | EmptyString => EmptyString
  end.

Definition rstrip (s : string) : string := String.rev (lstrip (String.rev s)).

Definition strip (s : string) : string := rstrip (lstrip s).

(** [s.replace(c, by)] for a one-character pattern. *)
Fixpoint replace_char (c : ascii) (by_ : string) (s : string) : string :=
  match s with
  | EmptyString => EmptyString
  | String d s' =>
      if Ascii.eqb d c then by_ +:+ replace_char c by_ s'
      else String d (replace_char c by_ s')
  end.

(** The regular-expression class [\w] among the ASCII characters.  On
    a [str] pattern Python's [\w] also matches the letters and digits
    beyond ASCII, which this byte model does not know: [is_word] is
    [\w] on ASCII text. *)
Definition is_word (c : ascii) : bool :=
  let n := nat_of_ascii c in
  ((48 <=? n) && (n <=? 57) || (65 <=? n) && (n <=? 90)
   || (97 <=? n) && (n <=? 122) || (n =? 95))%nat.

Fixpoint drop_while (p : ascii -> bool) (s : string) : string :=
  match s with
  | String c s' => if p c then drop_while p s' else s
  | EmptyString => EmptyString
  end.

(** [str(n)] and [f"{n:03d}"] for a non-negative integer. *)
Definition of_nat (n : nat) : string := NilEmpty.string_of_uint (Nat.to_uint n).

Definition of_Z (z : Z) : string :=
  if z <? 0 then String "-" (of_nat (Z.to_nat (- z))) else of_nat (Z.to_nat z).

Fixpoint zeros (n : nat) : string :=
  match n with O => EmptyString | S n' => String "0" (zeros n') end.

Definition pad3 (z : Z) : string :=
  if z <? 0 then
    let d := of_nat (Z.to_nat (- z)) in
    String "-" (zeros (2 - String.length d) +:+ d)
  else
    let d := of_nat (Z.to_nat z) in zeros (3 - String.length d) +:+ d.

End Str.

(** [re.sub(r'&name=\w+', '&name=large', src)]: every left-most,
    non-overlapping occurrence of [&name=] followed by at least one word
    character is replaced, the match extending over all the word
    characters that follow. *)
Fixpoint re_sub_name_fuel (fuel : nat) (s : string) : string :=
  match fuel with
  | O => s
  | S fuel' =>
      match s with
      | EmptyString => EmptyString
      | String c s' =>
          if String.prefix "&name=" s then
            match Str.drop 6 s with
            | String w rest =>
                if Str.is_word w
                then "&name=large" +:+ re_sub_name_fuel fuel' (Str.drop_while Str.is_word rest)
                else String c (re_sub_name_fuel fuel' s')
            | EmptyString => String c (re_sub_name_fuel fuel' s')
            end
          else String c (re_sub_name_fuel fuel' s')
      end
  end.

Definition re_sub_name (src : string) : string :=
  re_sub_name_fuel (String.length src) src.

(** [re.sub(r'[?&=:]', '_', s)] *)
Fixpoint re_sub_unsafe (s : string) : string :=
  match s with
  | EmptyString => EmptyString
  | String c s' =>
      String (if bool_decide (c ∈ ["?"; "&"; "="; ":"]%char) then "_"%char else c)
             (re_sub_unsafe s')
  end.

(* ================================================================= *)
(** ** Record model *)

(** [class Tweet] *)
#[local] Unset Elimination Schemes.
Inductive Tweet : Type := mkTweet {
  id : string;
  author_name : string;
  author_handle : string;
  text : string;
  timestamp : string;
  url : string;
  images : list string;
  videos : list string;
  quoted_tweet : option Tweet
}.

#[local] Set Elimination Schemes.

(* ================================================================= *)
(** ** The page driver, as seen by the extractor *)

(** An element handle: the attributes [get_attribute] reads and the
    text [inner_text] returns. *)
Record Element : Type := mkElement {
  attributes : gmap string string;
  inner_text : string
}.

Definition get_attribute (name : string) (e : Element) : option string :=
  attributes e !! name.

(** A tweet [article] node: for each locator the extractor issues on
    it, the elements the driver answers with, in document order
    ([.first] is the head of the answer, [count() > 0] its being
    non-empty).  The quote containers carry the nested tweet articles
    found inside them.  [parse_raises] tells whether one of the driver
    calls that [_parse_tweet_element] makes on the article raises.

    A [time] element is given by its [datetime] attribute: every
    [time] element is taken to carry one.  For a [time] element
    without it the code stores [None] in a field declared [str], and
    a later [list.sort] on such posts raises; such pages are outside
    the model. *)
#[local] Unset Elimination Schemes.
Inductive Node : Type := mkNode {
  status_links : list Element;      (* a[href*="/status/"] *)
  user_names : list Element;        (* [data-testid="User-Name"] *)
  tweet_texts : list Element;       (* [data-testid="tweetText"] *)
  times : list string;              (* time: the datetime of each *)
  media_imgs : list Element;        (* img[src*="pbs.twimg.com/media"] *)
  youtube_iframes : list Element;   (* iframe[src*="youtube.com/embed/"] *)
  vimeo_iframes : list Element;     (* iframe[src*="player.vimeo.com/video/"] *)
  card_links : list Element;        (* [data-testid="card.wrapper"] a[href] *)
  native_videos : list Element;     (* video *)
  quote_containers : list (list Node);
    (* div[role='link'][tabindex='0'], each with its article[data-testid='tweet'] *)
  parse_raises : bool
    (* a driver call raises while the article is parsed *)
}.

#[local] Set Elimination Schemes.

(* ================================================================= *)
(** ** Post extractor *)

(** The image loop of [_parse_tweet_element]. *)
Fixpoint extract_images (image_elements : list Element) : list string :=
  match image_elements with
  | [] => []
  | img :: rest =>
      match get_attribute "src" img with
      | Some src =>
          if bool_decide (src = "") then extract_images rest
          else re_sub_name src :: extract_images rest
      | None => extract_images rest
      end
  end.

(** [if x and x not in videos: videos.append(x)] over the elements of
    one locator answer. *)
Fixpoint append_unique (attr : string) (keep : string -> bool)
    (els : list Element) (videos : list string) : list string :=
  match els with
  | [] => videos
  | el :: rest =>
      match get_attribute attr el with
      | Some v =>
          if bool_decide (v = "") then append_unique attr keep rest videos
          else if keep v && bool_decide (v ∉ videos)
               then append_unique attr keep rest (videos ++ [v])
               else append_unique attr keep rest videos
      | None => append_unique attr keep rest videos
      end
  end.

Definition video_domains : list string :=
  ["youtu.be"; "youtube.com"; "vimeo.com"; "dailymotion.com"].

Definition is_video_link (href : string) : bool :=
  existsb (fun domain => Str.contains domain href) video_domains.

(** The three-stage video extraction of [_parse_tweet_element]. *)
Definition extract_videos (n : Node) (tweet_url : string) : list string :=
  let videos := [] in
  (* 1. iframe embeds, one selector after the other *)
  let videos := append_unique "src" (fun _ => true) (youtube_iframes n) videos in
  let videos := append_unique "src" (fun _ => true) (vimeo_iframes n) videos in
  (* 2. card links *)
  let videos :=
    match videos with
    | [] => append_unique "href" is_video_link (card_links n) videos
    | _ => videos
    end in
  (* 3. native video *)
  match videos with
  | [] =>
      match native_videos n with
      | [] => videos
      | _ :: _ => videos ++ ["https://twitter.com" +:+ tweet_url]
      end
  | _ => videos
  end.

(** [_parse_tweet_element]: [None] is the method's "no result".  The
    body runs inside [try]; the handler turns any exception into no
    result, so whichever driver call raises, and wherever, the method
    returns [None].  A nested call for a quoted article has its own
    handler and returns [None] to the outer call. *)
Fixpoint _parse_tweet_element (tweet_element : Node) : option Tweet :=
  if parse_raises tweet_element then None else
  let link_element := head (status_links tweet_element) in
  match link_element ≫= get_attribute "href" with
  | None => None
  | Some tweet_url =>
      if bool_decide (tweet_url = "") then None else
      let tweet_id := Str.first (Str.split "?" (Str.final (Str.split "/status/" tweet_url))) in
      let author_text :=
        match head (user_names tweet_element) with
        | Some author_element => inner_text author_element
        | None => "Unknown"
        end in
      let author_parts := Str.split (String "010" "") (Str.strip author_text) in
      let author_name := default "Unknown" (head author_parts) in
      let author_handle := default "@unknown" (author_parts !! 1%nat) in
      let tweet_text :=
        match head (tweet_texts tweet_element) with
        | Some text_element => inner_text text_element
        | None => ""
        end in
      let timestamp :=
        match head (times tweet_element) with
        | Some datetime => datetime
        | None => ""
        end in
      let images := extract_images (media_imgs tweet_element) in
      let videos := extract_videos tweet_element tweet_url in
      let parsed_quoted_tweet :=
        match quote_containers tweet_element with
        | [] => None
        | quote_container_div :: _ =>
            match quote_container_div with
            | [] => None
            | potential_quoted_tweet_el :: _ =>
                match _parse_tweet_element potential_quoted_tweet_el with
                | Some temp_parsed_quote =>
                    if bool_decide (id temp_parsed_quote ≠ tweet_id)
                    then Some temp_parsed_quote else None
                | None => None
                end
            end
        end in
      Some {| id := tweet_id;
              author_name := author_name;
              author_handle := author_handle;
              text := tweet_text;
              timestamp := timestamp;
              url := "https://twitter.com" +:+ tweet_url;
              images := images;
              videos := videos;
              quoted_tweet := parsed_quoted_tweet |}
  end.

(** [_extract_tweets_from_page]: parse every article, keep the
    results.  [_parse_tweet_element] catches what its body raises, so
    the handler around the call has nothing left to catch. *)
Fixpoint _extract_tweets_from_page (tweet_elements : list Node) : list Tweet :=
  match tweet_elements with
  | [] => []
  | tweet_element :: rest =>
      match _parse_tweet_element tweet_element with
      | Some tweet_data => tweet_data :: _extract_tweets_from_page rest
      | None => _extract_tweets_from_page rest
      end
  end.

(* ================================================================= *)
(** ** Serializer *)

(** The options of [config] the modelled methods read. *)
Record Config : Type := mkConfig {
  output_dir : string;
  tweets_per_file : Z;
  include_images : bool;
  scroll_retries : Z;
  download_images_locally : bool
}.

(** What the outside world does during one serialization pass. *)
Record Runtime : Type := mkRuntime {
  (* datetime.now().strftime('%Y-%m-%d %H:%M:%S') while the k-th file
     of the pass is written *)
  now : nat -> string;
  (* the result of the k-th _download_image call of the pass *)
  download_ok : nat -> string -> bool;
  (* datetime.fromisoformat(s).strftime('%Y-%m-%d %H:%M:%S'); None when
     fromisoformat raises ValueError *)
  strftime_iso : string -> option string
}.

Definition nl : string := String "010" EmptyString.

(** *** Writing to an open file

    A computation appends to the file being written, counts the image
    downloads it asked for, and may raise. *)
Record Sink : Type := mkSink { buf : string; fetched : nat }.

Inductive Result (A : Type) : Type :=
| Ok (a : A) (k : Sink)
| Raised (k : Sink).
Arguments Ok {A} a k.
Arguments Raised {A} k.

Definition M (A : Type) : Type := Sink -> Result A.

#[export] Instance M_ret : MRet M := fun A a k => Ok a k.
#[export] Instance M_bind : MBind M := fun A B f m k =>
  match m k with Ok a k' => f a k' | Raised k' => Raised k' end.
Definition raise {A} : M A := fun k => Raised k.

Notation "m ;;; f" := (mbind (fun _ : unit => f) m)
  (at level 100, f at level 200, right associativity, only parsing).

(** [file.write(s)] *)
Definition write (s : string) : M unit :=
  fun k => Ok tt {| buf := buf k +:+ s; fetched := fetched k |}.

(** [await self._download_image(page, img_url, local_path)]: whether
    the download succeeds is for the environment to say; the image
    bytes it stores are no part of the markdown output. *)
Definition _download_image (rt : Runtime) (img_url : string) : M bool :=
  fun k => Ok (download_ok rt (fetched k) img_url)
              {| buf := buf k; fetched := S (fetched k) |}.

Definition when (b : bool) (m : M unit) : M unit := if b then m else mret tt.

Fixpoint for_each {A} (l : list A) (body : A -> M unit) : M unit :=
  match l with
  | [] => mret tt
  | x :: rest => body x ;;; for_each rest body
  end.

Definition truthy (s : string) : bool := negb (bool_decide (s = "")).
Definition nonempty {A} (l : list A) : bool :=
  match l with [] => false | _ => true end.

(** [datetime.fromisoformat(ts.replace('Z', '+00:00')).strftime(...)] *)
Definition format_time (rt : Runtime) (ts : string) : M string :=
  match strftime_iso rt (Str.replace_char "Z" "+00:00" ts) with
  | Some formatted => mret formatted
  | None => raise
  end.

Definition basename_of (img_url : string) : string :=
  re_sub_unsafe (Str.final (Str.split "/" img_url)).

Definition write_quoted_tweet (cfg : Config) (rt : Runtime) (qt : Tweet) : M unit :=
  write (nl +:+ nl +:+ "> **Quoted Tweet:**" +:+ nl) ;;;
  write ("> **" +:+ author_name qt +:+ " (" +:+ author_handle qt +:+ ")**" +:+ nl +:+ nl) ;;;
  for_each (Str.split nl (text qt)) (fun line => write ("> " +:+ line +:+ nl)) ;;;
  write nl ;;;
  (if truthy (timestamp qt) then
     formatted_quoted_time ← format_time rt (timestamp qt);
     write ("> *[" +:+ formatted_quoted_time +:+ "](" +:+ url qt +:+ ")*" +:+ nl +:+ nl)
   else
     write ("> *[Link](" +:+ url qt +:+ ")*" +:+ nl +:+ nl)) ;;;
  when (include_images cfg && nonempty (images qt))
    (write ("> **Images (quoted):**" +:+ nl +:+ nl) ;;;
     for_each (images qt) (fun img_url =>
       if download_images_locally cfg then
         let local_filename := "qt_" +:+ id qt +:+ "_" +:+ basename_of img_url in
         download_successful ← _download_image rt img_url;
         if (download_successful : bool) then
           write ("> ![Quoted Image](./images/" +:+ local_filename +:+ ")" +:+ nl +:+ nl)
         else
           write ("> ![Quoted Image (Failed to download)](" +:+ img_url +:+ ")" +:+ nl +:+ nl)
       else
         write ("> ![Quoted Image](" +:+ img_url +:+ ")" +:+ nl +:+ nl))) ;;;
  when (nonempty (videos qt))
    (write ("> **Videos (quoted):**" +:+ nl +:+ nl) ;;;
     for_each (videos qt) (fun video_url =>
       write ("> - [Quoted Video Link](" +:+ video_url +:+ ")" +:+ nl)) ;;;
     write nl).

Definition _write_tweet_to_markdown (cfg : Config) (rt : Runtime) (tweet : Tweet) : M unit :=
  write ("## " +:+ author_name tweet +:+ " (" +:+ author_handle tweet +:+ ")" +:+ nl +:+ nl) ;;;
  (if truthy (timestamp tweet) then
     formatted_time ← format_time rt (timestamp tweet);
     write ("*[" +:+ formatted_time +:+ "](" +:+ url tweet +:+ ")*" +:+ nl +:+ nl)
   else
     write ("*[Link](" +:+ url tweet +:+ ")*" +:+ nl +:+ nl)) ;;;
  write (text tweet +:+ nl +:+ nl) ;;;
  when (include_images cfg && nonempty (images tweet))
    (write ("**Images:**" +:+ nl +:+ nl) ;;;
     for_each (images tweet) (fun img_url =>
       if download_images_locally cfg then
         let local_filename := id tweet +:+ "_" +:+ basename_of img_url in
         download_successful ← _download_image rt img_url;
         if (download_successful : bool) then
           write ("![Image](./images/" +:+ local_filename +:+ ")" +:+ nl +:+ nl)
         else
           write ("![Image (Failed to download)](" +:+ img_url +:+ ")" +:+ nl +:+ nl)
       else
         write ("![Image](" +:+ img_url +:+ ")" +:+ nl +:+ nl))) ;;;
  when (nonempty (videos tweet))
    (write ("**Videos:**" +:+ nl +:+ nl) ;;;
     for_each (videos tweet) (fun video_url =>
       write ("- [Video Link](" +:+ video_url +:+ ")" +:+ nl)) ;;;
     write nl) ;;;
  match quoted_tweet tweet with
  | Some qt => write_quoted_tweet cfg rt qt
  | None => mret tt
  end ;;;
  write ("---" +:+ nl +:+ nl).
(** *** Sorting

    [list.sort(key=lambda t: t.timestamp, reverse=True)]: Python's sort
    is stable, also under [reverse=True], and strings compare
    lexicographically; the result of a stable sort is determined by
    its input, here computed by insertion from the right. *)
Fixpoint insert_desc (t : Tweet) (l : list Tweet) : list Tweet :=
  match l with
  | [] => [t]
  | u :: l' =>
      if String.ltb (timestamp t) (timestamp u)
      then u :: insert_desc t l'
      else t :: u :: l'
  end.

Definition sort_by_timestamp_desc (l : list Tweet) : list Tweet :=
  foldr insert_desc [] l.

(** *** Chunking *)

(** [range(start, stop, step)]; [None] is the ValueError of a zero step. *)
Fixpoint range_up (fuel : nat) (i stop step : Z) : list Z :=
  match fuel with
  | O => []
  | S fuel' => if i <? stop then i :: range_up fuel' (i + step) stop step else []
  end.

Fixpoint range_down (fuel : nat) (i stop step : Z) : list Z :=
  match fuel with
  | O => []
  | S fuel' => if stop <? i then i :: range_down fuel' (i + step) stop step else []
  end.

Definition range (start stop step : Z) : option (list Z) :=
  if step =? 0 then None
  else if 0 <? step then Some (range_up (Z.to_nat (stop - start)) start stop step)
  else Some (range_down (Z.to_nat (start - stop)) start stop step).

(** [l[a:b]] for non-negative bounds. *)
Definition slice {A} (a b : Z) (l : list A) : list A :=
  drop (Z.to_nat a) (take (Z.to_nat b) l).

Definition date_of (ts : string) : string :=
  if truthy ts then Str.take 10 ts else "unknown".

(** The outcome of one call of [_save_to_markdown]: the collected list
    as the call leaves it, the files it wrote (path and content, in the
    order written), and whether it ended by raising. *)
Record Pass : Type := mkPass {
  collected_after : list Tweet;
  files : list (string * string);
  raised : bool
}.

(** The aggregate metadata computed before the chunk loop. *)
Record Totals : Type := mkTotals {
  total_tweets : nat;
  oldest_tweet_date_str : string;
  newest_tweet_date_str : string
}.

Definition totals_of (sorted : list Tweet) : Totals :=
  {| total_tweets := length sorted;
     oldest_tweet_date_str := from_option (fun t => date_of (timestamp t)) "unknown" (last sorted);
     newest_tweet_date_str := from_option (fun t => date_of (timestamp t)) "unknown" (head sorted) |}.

Definition chunk_filename (file_number : Z) (chunk : list Tweet) : string :=
  match head chunk, last chunk with
  | Some first_tweet, Some last_tweet =>
      "bookmarks_" +:+ Str.pad3 file_number +:+ "_" +:+ date_of (timestamp first_tweet)
        +:+ "_to_" +:+ date_of (timestamp last_tweet) +:+ ".md"
  | _, _ => "bookmarks_" +:+ Str.pad3 file_number +:+ ".md"
  end.

(** The body of the [with open(filepath, 'w')] block. *)
Definition write_file (cfg : Config) (rt : Runtime) (tot : Totals) (collected : list Tweet)
    (k_file : nat) (file_number : Z) (chunk : list Tweet) : M unit :=
  write ("# Twitter Bookmarks - Part " +:+ Str.of_Z file_number +:+ nl +:+ nl) ;;;
  write ("*Exported on " +:+ now rt k_file +:+ "*" +:+ nl +:+ nl) ;;;
  when (bool_decide (file_number = 1) && nonempty collected)
    (write ("**Total Bookmarks in Export:** " +:+ Str.of_nat (total_tweets tot) +:+ nl +:+ nl) ;;;
     write ("**Overall Date Range:** " +:+ oldest_tweet_date_str tot +:+ " to "
            +:+ newest_tweet_date_str tot +:+ nl +:+ nl)) ;;;
  write ("**Tweets in this file:** " +:+ Str.of_nat (length chunk) +:+ nl +:+ nl) ;;;
  write ("---" +:+ nl +:+ nl) ;;;
  for_each chunk (_write_tweet_to_markdown cfg rt).

(** The chunk of the sorted list that starts at index [i], with its
    1-based file number. *)
Definition chunk_at (cfg : Config) (collected : list Tweet) (i : Z) : Z * list Tweet :=
  (i `div` tweets_per_file cfg + 1, slice i (i + tweets_per_file cfg) collected).

(** The [for i in range(...)] loop: one file per chunk start. *)
Fixpoint write_chunks (cfg : Config) (rt : Runtime) (tot : Totals) (collected : list Tweet)
    (starts : list Z) (k_file : nat) (fetched0 : nat) : list (string * string) * bool :=
  match starts with
  | [] => ([], false)
  | i :: rest =>
      let '(file_number, chunk) := chunk_at cfg collected i in
      let filepath := output_dir cfg +:+ "/" +:+ chunk_filename file_number chunk in
      match write_file cfg rt tot collected k_file file_number chunk
              {| buf := ""; fetched := fetched0 |} with
      | Ok _ k =>
          let '(written, r) := write_chunks cfg rt tot collected rest (S k_file) (fetched k) in
          ((filepath, buf k) :: written, r)
      | Raised k => ([(filepath, buf k)], true)
      end
  end.

Definition _save_to_markdown (cfg : Config) (rt : Runtime) (tweets_collected : list Tweet) : Pass :=
  match tweets_collected with
  | [] => {| collected_after := tweets_collected; files := []; raised := false |}
  | _ :: _ =>
      let tweets_collected := sort_by_timestamp_desc tweets_collected in
      let tot := totals_of tweets_collected in
      match range 0 (Z.of_nat (length tweets_collected)) (tweets_per_file cfg) with
      | None => {| collected_after := tweets_collected; files := []; raised := true |}
      | Some starts =>
          let '(written, r) := write_chunks cfg rt tot tweets_collected starts 0 0 in
          {| collected_after := tweets_collected; files := written; raised := r |}
      end
  end.

(* ================================================================= *)
(** ** Collection loop *)

(** The loop's variables, with [self.tweets_collected]. *)
Record LoopState : Type := mkLoopState {
  tweets_seen : gset string;
  tweets_collected : list Tweet;
  no_new_tweets_count : Z;
  last_height : Z
}.

(** A driver call of the loop body that raises: the locator query of
    the extraction ([locator(...).all()], made outside any handler),
    or one of the three calls that scroll, wait and read the height.
    Nothing in the loop catches it: the run ends with the exception. *)
Inductive Fault : Type := ExtractRaises | ScrollRaises.

#[export] Instance Fault_eq_dec : EqDecision Fault.
Proof. solve_decision. Defined.

(** What the page shows during one iteration: the articles rendered
    when the iteration extracts, the scroll height read after the
    scroll and the wait, the world around a checkpoint pass, and the
    driver call that raises in this iteration, if one does. *)
Record Observation : Type := mkObservation {
  rendered : list Node;
  scroll_height : Z;
  runtime : Runtime;
  fault : option Fault
}.

(** What [page.locator('article[data-testid="tweet"]').all()] hands to
    the iteration: the rendered articles, or nothing when the call
    raises. *)
Definition articles (o : Observation) : list Node :=
  match fault o with
  | Some ExtractRaises => []
  | _ => rendered o
  end.

(** The [for tweet in new_tweets] loop. *)
Fixpoint track_unique (new_tweets : list Tweet)
    (seen : gset string) (collected : list Tweet) (new_count : Z)
    : gset string * list Tweet * Z :=
  match new_tweets with
  | [] => (seen, collected, new_count)
  | tweet :: rest =>
      if bool_decide (id tweet ∉ seen)
      then track_unique rest ({[id tweet]} ∪ seen) (collected ++ [tweet]) (new_count + 1)
      else track_unique rest seen collected new_count
  end.

(** How one pass through the body of [while True] ends: at the end
    of the body, at [break], with the exception of a checkpoint save,
    or with the exception of a driver call. *)
Inductive Step : Type :=
| Continue (st : LoopState) (checkpoint : option Pass)
| Break (st : LoopState)
| Crashed (st : LoopState) (failed : Pass)
| Faulted (st : LoopState).

Definition iteration (cfg : Config) (o : Observation) (st : LoopState) : Step :=
  if bool_decide (fault o = Some ExtractRaises) then Faulted st else
  let new_tweets := _extract_tweets_from_page (articles o) in
  let '(seen, collected, new_count) :=
    track_unique new_tweets (tweets_seen st) (tweets_collected st) 0 in
  let count := if new_count =? 0 then no_new_tweets_count st + 1 else 0 in
  if (new_count =? 0) && (scroll_retries cfg <=? count) then
    Break {| tweets_seen := seen; tweets_collected := collected;
             no_new_tweets_count := count; last_height := last_height st |}
  else if bool_decide (fault o = Some ScrollRaises) then
    Faulted {| tweets_seen := seen; tweets_collected := collected;
               no_new_tweets_count := count; last_height := last_height st |}
  else
    let new_height := scroll_height o in
    let count := if new_height =? last_height st then count + 1 else count in
    if (Z.of_nat (length collected) `mod` 500 =? 0) && (0 <? Z.of_nat (length collected)) then
      let pass := _save_to_markdown cfg (runtime o) collected in
      let st' := {| tweets_seen := seen; tweets_collected := collected_after pass;
                    no_new_tweets_count := count; last_height := new_height |} in
      if raised pass then Crashed st' pass else Continue st' (Some pass)
    else
      Continue {| tweets_seen := seen; tweets_collected := collected;
                  no_new_tweets_count := count; last_height := new_height |} None.

(** A run of the loop over the observations the page offers: it has
    not left the loop when they are used up, it has left it at
    [break], or it has ended with an exception. *)
Inductive Status : Type := Scrolling | Finished | Failed.

Record Run : Type := mkRun {
  state : LoopState;
  checkpoints : list Pass;
  status : Status
}.

Definition initial : LoopState :=
  {| tweets_seen := ∅; tweets_collected := [];
     no_new_tweets_count := 0; last_height := 0 |}.

Fixpoint collect_from (cfg : Config) (page : list Observation) (st : LoopState) : Run :=
  match page with
  | [] => {| state := st; checkpoints := []; status := Scrolling |}
  | o :: later =>
      match iteration cfg o st with
      | Break st' => {| state := st'; checkpoints := []; status := Finished |}
      | Crashed st' pass => {| state := st'; checkpoints := [pass]; status := Failed |}
      | Faulted st' => {| state := st'; checkpoints := []; status := Failed |}
      | Continue st' checkpoint =>
          let r := collect_from cfg later st' in
          {| state := state r;
             checkpoints := option_list checkpoint ++ checkpoints r;
             status := status r |}
      end
  end.

Definition _collect_all_bookmarks (cfg : Config) (page : list Observation) : Run :=
  collect_from cfg page initial.

(* ================================================================= *)
(** * Vocabulary of the statements *)

(** ** Collection loop *)

(** The ids of a list of posts, in order. *)
Definition ids (l : list Tweet) : list string := id <$> l.

(** The seen-set holds exactly the ids of the collected posts, and no
    id is collected twice. *)
Definition dedup_inv (seen : gset string) (collected : list Tweet) : Prop :=
  NoDup (ids collected) ∧ seen = list_to_set (ids collected).

(** The same, for the state of the loop. *)
Definition state_inv (st : LoopState) : Prop :=
  dedup_inv (tweets_seen st) (tweets_collected st).

(** The state a pass through the loop body ends in. *)
Definition step_state (s : Step) : LoopState :=
  match s with Continue st _ | Break st | Crashed st _ | Faulted st => st end.

(** [extracted_from page t]: [t] is what the extractor returned for
    an article of the page. *)
Definition extracted_from (page : list Observation) (t : Tweet) : Prop :=
  ∃ o n, o ∈ page ∧ n ∈ articles o ∧ _parse_tweet_element n = Some t.

(** ** Sorting *)

(** [newer_first a b]: [a] may stand before [b] in the sorted list. *)
Definition newer_first (a b : Tweet) : Prop := (timestamp b ≤ timestamp a)%string.

(** ** Text *)

(** [occurs sep s]: [sep] is a substring of [s]. *)
Definition occurs (sep s : string) : Prop := ∃ a b, s = a +:+ sep +:+ b.

(** The text up to the first character that satisfies [stop]. *)
Fixpoint take_until (stop : ascii → bool) (s : string) : string :=
  match s with
  | String c s' => if stop c then EmptyString else String c (take_until stop s')
  | EmptyString => EmptyString
  end.

(** [s.isascii()]: on such text the white space of [Str.strip] and
    the word characters of [Str.is_word] are Python's. *)
Definition is_ascii (s : string) : bool :=
  forallb (λ c, (nat_of_ascii c <? 128)%nat) (list_ascii_of_string s).

(** [s] holds a match of [&name=\w+]. *)
Definition has_size_param (s : string) : Prop :=
  ∃ pre c rest, s = pre +:+ "&name=" +:+ String c rest ∧ Str.is_word c = true.

(** ** Extractor *)

(** The [href] the extractor reads the permalink from. *)
Definition permalink (n : Node) : option string :=
  head (status_links n) ≫= get_attribute "href".

(** [tweet_url.split('/status/')[-1].split('?')[0]] *)
Definition tweet_id_of (tweet_url : string) : string :=
  Str.first (Str.split "?" (Str.final (Str.split "/status/" tweet_url))).

(** The specification's reading of the id: the path segment that
    follows [/status/] in the permalink, without query string. *)
Definition spec_status_segment (tweet_url : string) : option string :=
  match Str.find "/status/" tweet_url with
  | Some (_, after) =>
      Some (take_until (λ c, bool_decide (c ∈ ["/"; "?"]%char)) after)
  | None => None
  end.

(** The nested article the quote lookup resolves to: the first tweet
    article inside the first quote container. *)
Definition quoted_candidate (n : Node) : option Node :=
  match quote_containers n with
  | (m :: _) :: _ => Some m
  | _ => None
  end.

(** At every depth, a quoted post and its container have different ids. *)
Fixpoint quotes_differ (t : Tweet) : Prop :=
  match t with
  | mkTweet outer_id _ _ _ _ _ _ _ (Some q) => id q ≠ outer_id ∧ quotes_differ q
  | mkTweet _ _ _ _ _ _ _ _ None => True
  end.

(** The non-empty values of attribute [attr] over the elements of a
    locator answer, in document order. *)
Definition values (attr : string) (els : list Element) : list string :=
  omap (λ e, get_attribute attr e ≫= λ v, if bool_decide (v = "") then None else Some v) els.

(** Stage 1 of the video extraction. *)
Definition iframe_videos (n : Node) : list string :=
  append_unique "src" (λ _, true) (vimeo_iframes n)
    (append_unique "src" (λ _, true) (youtube_iframes n) []).

(** Stage 2, from an empty list. *)
Definition card_videos (n : Node) : list string :=
  append_unique "href" is_video_link (card_links n) [].

(** The iframe elements are what their selectors match: each carries
    a [src] that contains the embed pattern. *)
Definition iframes_match_selectors (n : Node) : Prop :=
  Forall (λ e, ∃ src, get_attribute "src" e = Some src
                      ∧ Str.contains "youtube.com/embed/" src = true) (youtube_iframes n)
  ∧ Forall (λ e, ∃ src, get_attribute "src" e = Some src
                        ∧ Str.contains "player.vimeo.com/video/" src = true) (vimeo_iframes n).

(* ================================================================= *)
(** * Sample inputs *)

(** An article whose only content is one status link. *)
Definition link_only (href : string) : Node :=
  {| status_links := [{| attributes := {[ "href" := href ]}; inner_text := "" |}];
     user_names := []; tweet_texts := []; times := []; media_imgs := [];
     youtube_iframes := []; vimeo_iframes := []; card_links := [];
     native_videos := []; quote_containers := []; parse_raises := false |}.

(** An article with a status link, in whose parsing a driver call
    raises. *)
Definition raising_article (href : string) : Node :=
  {| status_links := [{| attributes := {[ "href" := href ]}; inner_text := "" |}];
     user_names := []; tweet_texts := []; times := []; media_imgs := [];
     youtube_iframes := []; vimeo_iframes := []; card_links := [];
     native_videos := []; quote_containers := []; parse_raises := true |}.

(** An article that quotes an article with the same status id. *)
Definition self_quoting : Node :=
  {| status_links := [{| attributes := {[ "href" := "/ann/status/77" ]}; inner_text := "" |}];
     user_names := []; tweet_texts := []; times := []; media_imgs := [];
     youtube_iframes := []; vimeo_iframes := []; card_links := [];
     native_videos := [];
     quote_containers := [[link_only "/ann/status/77?ref=quote"]];
     parse_raises := false |}.

(** An article with a YouTube embed, a video card and a native video. *)
Definition embed_and_native : Node :=
  {| status_links := [{| attributes := {[ "href" := "/ann/status/5" ]}; inner_text := "" |}];
     user_names := []; tweet_texts := []; times := []; media_imgs := [];
     youtube_iframes :=
       [{| attributes := {[ "src" := "https://www.youtube.com/embed/abc" ]}; inner_text := "" |};
        {| attributes := {[ "src" := "https://www.youtube.com/embed/abc" ]}; inner_text := "" |}];
     vimeo_iframes := [];
     card_links := [{| attributes := {[ "href" := "https://youtu.be/xyz" ]}; inner_text := "" |}];
     native_videos := [{| attributes := ∅; inner_text := "" |}];
     quote_containers := []; parse_raises := false |}.

(** The defaults of [main]. *)
Definition default_config : Config :=
  {| output_dir := "twitter_bookmarks"; tweets_per_file := 100;
     include_images := true; scroll_retries := 3;
     download_images_locally := false |}.

(** The scenario of two posts per file and three posts. *)
Definition two_per_file : Config :=
  {| output_dir := "out"; tweets_per_file := 2; include_images := true;
     scroll_retries := 3; download_images_locally := false |}.

(** What [fromisoformat(...).strftime('%Y-%m-%d %H:%M:%S')] gives on a
    timestamp of the form YYYY-MM-DDTHH:MM:SS.fff+00:00; used in the
    examples only. *)
Definition strftime_sample (s : string) : option string :=
  Some (Str.take 10 s +:+ " " +:+ Str.take 8 (Str.drop 11 s)).

(** A pass during which the clock reads [stamp]. *)
Definition runtime_at (stamp : string) : Runtime :=
  {| now := λ _, stamp; download_ok := λ _ _, true; strftime_iso := strftime_sample |}.

(** A post with id [i] and timestamp [ts], without media. *)
Definition sample_tweet (i ts : string) : Tweet :=
  {| id := i; author_name := "Ann"; author_handle := "@ann"; text := "hello";
     timestamp := ts; url := "https://twitter.com/ann/status/" +:+ i;
     images := []; videos := []; quoted_tweet := None |}.

Definition three_posts : list Tweet :=
  [sample_tweet "1" "2024-01-03T10:00:00Z";
   sample_tweet "2" "2024-01-01T09:00:00Z";
   sample_tweet "3" "2024-01-02T08:00:00Z"].

(** The article of status [k]. *)
Definition article_numbered (k : nat) : Node :=
  link_only ("/ann/status/" +:+ Str.of_nat k).

(** The page shows the [count] articles numbered from [from], and has
    grown when it is measured. *)
Definition shows (from count : nat) : Observation :=
  {| rendered := article_numbered <$> seq from count;
     scroll_height := Z.of_nat (from + count) * 400;
     runtime := runtime_at "2025-03-01 10:00:00";
     fault := None |}.

(** The same page in a pass in which the driver call [call] raises. *)
Definition shows_until (call : Fault) (from count : nat) : Observation :=
  {| rendered := article_numbered <$> seq from count;
     scroll_height := Z.of_nat (from + count) * 400;
     runtime := runtime_at "2025-03-01 10:00:00";
     fault := Some call |}.

(** Seven new articles at every scroll. *)
Definition seven_per_scroll (scrolls : nat) : list Observation :=
  (λ i, shows (7 * i + 1) 7) <$> seq 0 scrolls.

(* ================================================================= *)
(** * Vocabulary of the further properties *)

(** The id the extractor gives the post of a node, if it gives one:
    none when a driver call raises while the node is parsed, none
    without a status link with a non-empty href. *)
Definition shown_id (n : Node) : option string :=
  if parse_raises n then None
  else permalink n ≫= λ u, if bool_decide (u = "") then None else Some (tweet_id_of u).

(** [quiet seen o]: the page shows, in [o], no post whose id is not
    in [seen]. *)
Definition quiet (seen : gset string) (o : Observation) : Prop :=
  Forall (λ t, id t ∈ seen) (_extract_tweets_from_page (articles o)).

#[export] Instance quiet_dec (seen : gset string) (o : Observation) :
  Decision (quiet seen o).
Proof. unfold quiet. apply _. Defined.

(** The same three posts shown at every scroll, the page never
    growing. *)
Definition frozen_page (scrolls : nat) : list Observation :=
  replicate scrolls (shows 1 3).

(** Whether a computation ended without raising, and the sink it
    left. *)
Definition is_ok {A} (r : Result A) : bool :=
  match r with Ok _ _ => true | Raised _ => false end.

Definition sink_of {A} (r : Result A) : Sink :=
  match r with Ok _ k | Raised k => k end.

Definition finish (ok : bool) : Sink → Result unit := if ok then Ok tt else Raised.

(** [formats rt ts]: writing the timestamp [ts] does not raise: it is
    empty, or [fromisoformat] accepts it. *)
Definition formats (rt : Runtime) (ts : string) : bool :=
  if truthy ts
  then bool_decide (is_Some (strftime_iso rt (Str.replace_char "Z" "+00:00" ts)))
  else true.

(** The timestamps a post is written with: its own and that of its
    quoted post. *)
Definition formattable (rt : Runtime) (t : Tweet) : bool :=
  formats rt (timestamp t)
  && match quoted_tweet t with Some qt => formats rt (timestamp qt) | None => true end.

(** The number of [_download_image] calls made while a post is
    written. *)
Definition downloads_of (cfg : Config) (rt : Runtime) (t : Tweet) : nat :=
  if include_images cfg && download_images_locally cfg then
    if formats rt (timestamp t) then
      (length (images t)
       + match quoted_tweet t with
         | Some qt => if formats rt (timestamp qt) then length (images qt) else 0
         | None => 0
         end)%nat
    else 0%nat
  else 0%nat.

(** The line written for an image of a post, [downloaded] being the
    answer of [_download_image]. *)
Definition image_line (cfg : Config) (downloaded : bool) (tweet_id img_url : string) : string :=
  if download_images_locally cfg then
    if downloaded
    then "![Image](./images/" +:+ (tweet_id +:+ "_" +:+ basename_of img_url) +:+ ")" +:+ nl +:+ nl
    else "![Image (Failed to download)](" +:+ img_url +:+ ")" +:+ nl +:+ nl
  else "![Image](" +:+ img_url +:+ ")" +:+ nl +:+ nl.

(** [emits m ok d lines]: from any sink, [m] appends some text [out]
    to the file, asks for [d] downloads, ends without raising iff
    [ok], and [out] holds every line [l] with [lines f l], [f] being
    the number of downloads asked for before. *)
Definition emits (m : M unit) (ok : bool) (d : nat) (lines : nat → string → Prop) : Prop :=
  ∀ k, ∃ out,
    m k = finish ok {| buf := buf k +:+ out; fetched := (fetched k + d)%nat |}
    ∧ ∀ l, lines (fetched k) l → occurs l out.

(** A post with two images and a runtime under which the first
    download fails. *)
Definition two_images : Tweet :=
  {| id := "9"; author_name := "Ann"; author_handle := "@ann"; text := "hello";
     timestamp := ""; url := "https://twitter.com/ann/status/9";
     images := ["https://pbs.twimg.com/media/A?format=jpg&name=large";
                "https://pbs.twimg.com/media/B?format=jpg&name=large"];
     videos := []; quoted_tweet := None |}.

Definition first_download_fails : Runtime :=
  {| now := λ _, "2025-03-01 10:00:00";
     download_ok := λ k _, negb (k =? 0)%nat;
     strftime_iso := strftime_sample |}.

Definition downloading : Config :=
  {| output_dir := "out"; tweets_per_file := 100; include_images := true;
     scroll_retries := 3; download_images_locally := true |}.

(** What holds of a save made inside the loop and the state it
    leaves. *)
Definition at_multiple_of_500 (pass : Pass) (st : LoopState) : Prop :=
  collected_after pass ≡ₚ tweets_collected st
  ∧ 0 < Z.of_nat (length (tweets_collected st))
  ∧ Z.of_nat (length (tweets_collected st)) `mod` 500 = 0.

(** The characters that cannot stand in a file number. *)
Definition not_digit (c : ascii) : bool :=
  negb ((48 <=? nat_of_ascii c)%nat && (nat_of_ascii c <=? 57)%nat).

(** The first line written for a post, and the line of its text. *)
Definition heading (t : Tweet) : string :=
  "## " +:+ author_name t +:+ " (" +:+ author_handle t +:+ ")" +:+ nl +:+ nl.

Definition text_line (t : Tweet) : string := text t +:+ nl +:+ nl.

(** The line of the first file that states the size of the export. *)
Definition total_line (total : nat) : string :=
  "**Total Bookmarks in Export:** " +:+ Str.of_nat total +:+ nl +:+ nl.

(* ================================================================= *)
(** * Properties *)

(** ** Deduplication in the collection loop *)

Lemma ids_app (l1 l2 : list Tweet) : ids (l1 ++ l2) = ids l1 ++ ids l2.
Proof. apply fmap_app. Qed.

(** What the inner loop adds: the first occurrences, in order, of the
    ids the seen-set does not hold yet. *)
Lemma track_unique_fresh (new_tweets : list Tweet) :
  ∀ (seen : gset string) (collected : list Tweet) (new_count : Z),
  ∃ fresh : list Tweet,
    track_unique new_tweets seen collected new_count
      = (list_to_set (ids fresh) ∪ seen, collected ++ fresh,
         new_count + Z.of_nat (length fresh))
    ∧ sublist fresh new_tweets
    ∧ NoDup (ids fresh)
    ∧ (∀ t, t ∈ fresh → id t ∉ seen)
    ∧ (∀ (i : nat) t, new_tweets !! i = Some t → id t ∉ seen →
         id t ∉ ids (take i new_tweets) → t ∈ fresh).
Proof.
  induction new_tweets as [|t rest IH]; intros seen collected new_count.
  - exists []. simpl. rewrite app_nil_r, Z.add_0_r.
    repeat split; [f_equal; f_equal; set_solver | constructor | constructor
                  | set_solver | intros i u Hi; by rewrite lookup_nil in Hi].
  - simpl. case_bool_decide as Hseen.
    + destruct (IH ({[id t]} ∪ seen) (collected ++ [t]) (new_count + 1))
        as (fresh & -> & Hsub & Hnd & Hnew & Hfirst).
      exists (t :: fresh). repeat split.
      * f_equal; [f_equal|].
        -- simpl. set_solver.
        -- by rewrite <- app_assoc.
        -- simpl length. lia.
      * by apply sublist_skip.
      * simpl. constructor; [|done].
        intros (u & Hu & Hin)%list_elem_of_fmap.
        apply (Hnew u Hin). rewrite <- Hu. set_solver.
      * intros u [->|Hin]%elem_of_cons; [done|].
        specialize (Hnew u Hin). set_solver.
      * intros [|i] u Hi Hu Hprev; simpl in *.
        -- injection Hi as <-. left.
        -- right. apply (Hfirst i u Hi); [|set_solver].
           apply not_elem_of_cons in Hprev. set_solver.
    + destruct (IH seen collected new_count)
        as (fresh & -> & Hsub & Hnd & Hnew & Hfirst).
      exists fresh. repeat split; try done.
      * by apply sublist_cons.
      * intros [|i] u Hi Hu Hprev; simpl in *.
        -- injection Hi as <-. done.
        -- apply (Hfirst i u Hi Hu). apply not_elem_of_cons in Hprev. tauto.
Qed.

Lemma track_unique_inv (new_tweets : list Tweet) (seen : gset string)
    (collected : list Tweet) (new_count : Z) :
  dedup_inv seen collected →
  dedup_inv (track_unique new_tweets seen collected new_count).1.1
            (track_unique new_tweets seen collected new_count).1.2.
Proof.
  intros [Hnd ->].
  destruct (track_unique_fresh new_tweets (list_to_set (ids collected)) collected new_count)
    as (fresh & -> & _ & Hfd & Hnew & _).
  simpl. split.
  - rewrite ids_app. apply NoDup_app. repeat split; [done| |done].
    intros x Hx (u & -> & Hu)%list_elem_of_fmap.
    apply (Hnew u Hu). by apply elem_of_list_to_set.
  - rewrite ids_app, list_to_set_app_L. set_solver.
Qed.

(** ** The sort *)

Lemma compare_refl (s : string) : String.compare s s = Eq.
Proof.
  induction s as [|c s IH]; simpl; [done|].
  unfold Ascii.compare. by rewrite N.compare_refl.
Qed.

Lemma ltb_false_ge (a b : string) : String.ltb a b = false → (b ≤ a)%string.
Proof.
  unfold String.ltb, String.le, String.leb.
  rewrite (String.compare_antisym a b).
  by destruct (String.compare b a).
Qed.

Lemma ltb_true_lt (a b : string) : String.ltb a b = true → (a ≤ b)%string ∧ a ≠ b.
Proof.
  unfold String.ltb, String.le, String.leb.
  destruct (String.compare a b) eqn:E; try done.
  intros _. split; [done|]. intros ->.
  assert (String.compare b b = Eq) as Hb by apply compare_refl.
  congruence.
Qed.

Lemma le_empty_inv (a : string) : (a ≤ "")%string → a = "".
Proof. by destruct a. Qed.

Lemma insert_desc_perm (t : Tweet) (l : list Tweet) : insert_desc t l ≡ₚ t :: l.
Proof.
  induction l as [|u l IH]; simpl; [done|].
  destruct (String.ltb _ _); [|done].
  rewrite IH. apply perm_swap.
Qed.

Lemma sort_perm (l : list Tweet) : sort_by_timestamp_desc l ≡ₚ l.
Proof.
  induction l as [|t l IH]; simpl; [done|].
  by rewrite insert_desc_perm, IH.
Qed.

Lemma insert_desc_sorted (t : Tweet) (l : list Tweet) :
  StronglySorted newer_first l → StronglySorted newer_first (insert_desc t l).
Proof.
  induction 1 as [|u l Hs IH Hu]; simpl.
  - repeat constructor.
  - destruct (String.ltb _ _) eqn:E.
    + constructor; [done|].
      rewrite insert_desc_perm. constructor; [|done].
      by apply ltb_true_lt in E as [? _].
    + apply ltb_false_ge in E.
      constructor; [by constructor|].
      constructor; [done|].
      eapply Forall_impl; [exact Hu|].
      intros x Hx. unfold newer_first in *. by etrans.
Qed.

Lemma sort_sorted (l : list Tweet) : StronglySorted newer_first (sort_by_timestamp_desc l).
Proof.
  induction l; simpl; [constructor | by apply insert_desc_sorted].
Qed.

Lemma insert_desc_filter (k : string) (t : Tweet) (l : list Tweet) :
  filter (λ x, timestamp x = k) (insert_desc t l)
  = filter (λ x, timestamp x = k) (t :: l).
Proof.
  induction l as [|u l IH]; simpl; [done|].
  destruct (String.ltb _ _) eqn:E; [|done].
  apply ltb_true_lt in E as [_ Hne].
  rewrite (filter_cons _ u), IH, !filter_cons.
  repeat case_decide; congruence.
Qed.

Lemma sort_stable (k : string) (l : list Tweet) :
  filter (λ x, timestamp x = k) (sort_by_timestamp_desc l)
  = filter (λ x, timestamp x = k) l.
Proof.
  induction l as [|t l IH]; simpl; [done|].
  rewrite insert_desc_filter, !filter_cons. by rewrite IH.
Qed.

Lemma insert_desc_sorted_id (t : Tweet) (l : list Tweet) :
  StronglySorted newer_first (t :: l) → insert_desc t l = t :: l.
Proof.
  intros Hs. apply StronglySorted_inv in Hs as [_ Hall].
  destruct l as [|u l]; simpl; [done|].
  apply Forall_cons in Hall as [Hu _].
  destruct (String.ltb _ _) eqn:E; [|done].
  apply ltb_true_lt in E as [Hle Hne].
  destruct Hne. by apply (anti_symm String.le).
Qed.

Lemma sort_sorted_id (l : list Tweet) :
  StronglySorted newer_first l → sort_by_timestamp_desc l = l.
Proof.
  induction 1 as [|t l Hs IH Ht]; simpl; [done|].
  rewrite IH. apply insert_desc_sorted_id. by constructor.
Qed.

Lemma sort_idem (l : list Tweet) :
  sort_by_timestamp_desc (sort_by_timestamp_desc l) = sort_by_timestamp_desc l.
Proof. apply sort_sorted_id, sort_sorted. Qed.

Lemma save_collected_after (cfg : Config) (rt : Runtime) (l : list Tweet) :
  collected_after (_save_to_markdown cfg rt l) = sort_by_timestamp_desc l.
Proof.
  destruct l as [|t l]; [done|].
  unfold _save_to_markdown.
  destruct (range _ _ _); [|done].
  by destruct (write_chunks _ _ _ _ _ _ _).
Qed.

(** ** The loop keeps the deduplication invariant *)

Lemma dedup_inv_perm (seen : gset string) (l1 l2 : list Tweet) :
  l1 ≡ₚ l2 → dedup_inv seen l1 → dedup_inv seen l2.
Proof.
  intros Hp [Hnd ->]. unfold dedup_inv, ids. rewrite <- Hp. split; [done|].
  apply set_eq. intros x. rewrite !elem_of_list_to_set. by rewrite Hp.
Qed.

Section Invariant.
Context (cfg : Config).

Lemma iteration_inv (o : Observation) (st : LoopState) :
  state_inv st → state_inv (step_state (iteration cfg o st)).
Proof.
  intros Hinv. unfold iteration.
  case_bool_decide; [done|].
  pose proof (track_unique_inv (_extract_tweets_from_page (articles o))
                _ _ 0 Hinv) as Hnext.
  destruct (track_unique _ _ _ _) as [[seen collected] new_count]. simpl in Hnext.
  destruct (_ && _); [done|].
  case_bool_decide; [done|].
  destruct (_ && _); [|done].
  assert (state_inv {| tweets_seen := seen;
            tweets_collected := collected_after (_save_to_markdown cfg (runtime o) collected);
            no_new_tweets_count :=
              (if scroll_height o =? last_height st
               then (if new_count =? 0 then no_new_tweets_count st + 1 else 0) + 1
               else if new_count =? 0 then no_new_tweets_count st + 1 else 0);
            last_height := scroll_height o |}) as Hsaved.
  { unfold state_inv. simpl. rewrite save_collected_after.
    eapply dedup_inv_perm; [symmetry; apply sort_perm | done]. }
  by destruct (raised _).
Qed.

Lemma collect_from_inv (page : list Observation) :
  ∀ st, state_inv st → state_inv (state (collect_from cfg page st)).
Proof.
  induction page as [|o later IH]; intros st Hinv; simpl; [done|].
  pose proof (iteration_inv o st Hinv) as Hstep.
  destruct (iteration cfg o st); simpl in *; auto.
Qed.

End Invariant.

Lemma initial_inv : state_inv initial.
Proof. split; [constructor | done]. Qed.


(** ** Order of the serialized posts *)

Lemma sorted_undated_last (l : list Tweet) :
  StronglySorted newer_first l →
  ∃ dated undated, l = dated ++ undated
    ∧ Forall (λ t, timestamp t ≠ "") dated
    ∧ Forall (λ t, timestamp t = "") undated.
Proof.
  induction 1 as [|t l Hs (dated & undated & -> & Hd & Hu) Ht].
  - by exists [], [].
  - destruct (decide (timestamp t = "")) as [Hempty|Hdated].
    + exists [], (t :: dated ++ undated). repeat split; [constructor|].
      constructor; [done|].
      eapply Forall_impl; [exact Ht|].
      intros x Hx. unfold newer_first in Hx. rewrite Hempty in Hx.
      by apply le_empty_inv.
    + exists (t :: dated), undated. repeat split; [by constructor | done].
Qed.

(** C4.  A serialization pass leaves and writes the collected posts
    sorted by timestamp string, newest first: the order is a
    rearrangement of the input, descending in the lexicographic order
    of the timestamps, stable (posts with one timestamp keep their
    relative order), and every post with an empty timestamp comes
    after every post with a non-empty one. *)
Theorem save_sorts_by_timestamp_descending (cfg : Config) (rt : Runtime) (l : list Tweet) :
  let sorted := collected_after (_save_to_markdown cfg rt l) in
  sorted ≡ₚ l
  ∧ StronglySorted (λ a b, (timestamp b ≤ timestamp a)%string) sorted
  ∧ (∀ k, filter (λ t, timestamp t = k) sorted = filter (λ t, timestamp t = k) l)
  ∧ ∃ dated undated, sorted = dated ++ undated
      ∧ Forall (λ t, timestamp t ≠ "") dated
      ∧ Forall (λ t, timestamp t = "") undated.
Proof.
  simpl. rewrite save_collected_after.
  split; [apply sort_perm|]. split; [apply sort_sorted|].
  split; [intros k; apply sort_stable|].
  apply sorted_undated_last, sort_sorted.
Qed.

(** ** Chunking *)

Lemma range_up_lookup (stop step : Z) (fuel : nat) :
  ∀ (i : Z) (k : nat) (j : Z),
  range_up fuel i stop step !! k = Some j → j = i + Z.of_nat k * step ∧ j < stop.
Proof.
  induction fuel as [|fuel IH]; intros i k j; simpl; [done|].
  destruct (i <? stop) eqn:E; [|done].
  apply Z.ltb_lt in E.
  destruct k as [|k]; simpl.
  - intros [= <-]. lia.
  - intros [-> ?]%IH. lia.
Qed.

Lemma range_up_concat {A} (l : list A) (step : Z) (fuel : nat) :
  0 < step →
  ∀ i : Z, 0 ≤ i → Z.of_nat (length l) - i ≤ Z.of_nat fuel →
  concat ((λ j, slice j (j + step) l) <$> range_up fuel i (Z.of_nat (length l)) step)
  = drop (Z.to_nat i) l.
Proof.
  intros Hstep. induction fuel as [|fuel IH]; intros i Hi Hfuel; simpl.
  - symmetry. apply drop_ge. lia.
  - destruct (i <? Z.of_nat (length l)) eqn:E.
    + apply Z.ltb_lt in E. simpl. rewrite IH by lia.
      unfold slice. apply drop_take_drop. lia.
    + apply Z.ltb_ge in E. symmetry. apply drop_ge. lia.
Qed.

(** The files of a pass that does not raise are the chunks, one file
    per chunk start, in order, each under the name of its chunk. *)
Lemma write_chunks_names (cfg : Config) (rt : Runtime) (tot : Totals)
    (collected : list Tweet) (starts : list Z) :
  ∀ (k_file fetched0 : nat) (written : list (string * string)),
  write_chunks cfg rt tot collected starts k_file fetched0 = (written, false) →
  written.*1
  = (λ i, output_dir cfg +:+ "/"
          +:+ chunk_filename (chunk_at cfg collected i).1 (chunk_at cfg collected i).2)
    <$> starts.
Proof.
  induction starts as [|i rest IH]; intros k_file fetched0 written; simpl.
  - by intros [= <-].
  - destruct (chunk_at cfg collected i) as [file_number chunk] eqn:Hc.
    destruct (write_file _ _ _ _ _ _ _ _) as [[] k|k]; [|done].
    destruct (write_chunks _ _ _ _ rest _ _) as [more r] eqn:Hrest.
    intros [= <- ->]. simpl. f_equal. by eapply IH.
Qed.

Lemma save_writes_one_file_per_chunk (cfg : Config) (rt : Runtime)
    (l : list Tweet) (starts : list Z) :
  l ≠ [] →
  range 0 (Z.of_nat (length (sort_by_timestamp_desc l))) (tweets_per_file cfg) = Some starts →
  raised (_save_to_markdown cfg rt l) = false →
  (files (_save_to_markdown cfg rt l)).*1
  = (λ i, output_dir cfg +:+ "/"
          +:+ chunk_filename (chunk_at cfg (sort_by_timestamp_desc l) i).1
                             (chunk_at cfg (sort_by_timestamp_desc l) i).2)
    <$> starts.
Proof.
  intros Hl Hrange. destruct l as [|t l]; [done|].
  unfold _save_to_markdown. rewrite Hrange.
  destruct (write_chunks _ _ _ _ _ _ _) as [written r] eqn:Hw. simpl.
  intros ->. by eapply write_chunks_names.
Qed.

(** C5.  For a positive chunk size the chunk starts exist, and the
    chunks taken at them, in the order of their 1-based file numbers
    1, 2, 3, ..., concatenate to exactly the sorted list; every chunk
    but the last has the configured size and no chunk is empty or
    larger. *)
Theorem chunks_partition_the_sorted_list (cfg : Config) (sorted : list Tweet) :
  0 < tweets_per_file cfg →
  ∃ starts : list Z,
    range 0 (Z.of_nat (length sorted)) (tweets_per_file cfg) = Some starts
    ∧ let chunks := chunk_at cfg sorted <$> starts in
      concat (chunks.*2) = sorted
      ∧ chunks.*1 = Z.of_nat <$> seq 1 (length chunks)
      ∧ (∀ (k : nat) c, chunks.*2 !! k = Some c → (S k < length chunks)%nat →
           Z.of_nat (length c) = tweets_per_file cfg)
      ∧ (∀ c, c ∈ chunks.*2 → 0 < Z.of_nat (length c) ≤ tweets_per_file cfg).
Proof.
  intros Hpos. unfold range.
  destruct (Z.eqb_spec (tweets_per_file cfg) 0) as [|_]; [lia|].
  destruct (Z.ltb_spec 0 (tweets_per_file cfg)) as [_|]; [|lia].
  eexists; split; [reflexivity|]. simpl.
  set (n := tweets_per_file cfg) in *.
  set (starts := range_up _ _ _ _).
  assert (∀ (k : nat) c, (chunk_at cfg sorted <$> starts) !! k = Some c →
            ∃ j, starts !! k = Some j ∧ j = Z.of_nat k * n
                 ∧ j < Z.of_nat (length sorted)
                 ∧ c = (Z.of_nat k + 1, slice j (j + n) sorted)) as Hchunk.
  { intros k c Hk. rewrite list_lookup_fmap in Hk.
    destruct (starts !! k) as [j|] eqn:Hj; [|done].
    injection Hk as <-. exists j.
    destruct (range_up_lookup _ _ _ _ _ _ Hj) as [-> Hlt].
    split; [done|]. split; [lia|]. split; [done|].
    unfold chunk_at. fold n. f_equal. rewrite Z.add_0_l, Z.div_mul by lia. done. }
  assert (∀ j, 0 ≤ j < Z.of_nat (length sorted) →
            Z.of_nat (length (slice j (j + n) sorted))
            = Z.min n (Z.of_nat (length sorted) - j)) as Hlen.
  { intros j Hj. unfold slice. rewrite length_drop, length_take. lia. }
  split; [|split; [|split]].
  - rewrite <- list_fmap_compose.
    etrans; [apply (range_up_concat sorted n _ Hpos 0); lia | done].
  - apply list_eq. intros k.
    rewrite !list_lookup_fmap, length_fmap.
    destruct (starts !! k) as [j|] eqn:Hj.
    + destruct (Hchunk k (chunk_at cfg sorted j)) as (j' & Hj' & _ & _ & Heq).
      { by rewrite list_lookup_fmap, Hj. }
      change (Some (chunk_at cfg sorted j).1 = Z.of_nat <$> seq 1 (length starts) !! k).
      rewrite Heq. simpl.
      apply lookup_lt_Some in Hj as Hk.
      rewrite lookup_seq_lt by done. simpl. f_equal. lia.
    + apply lookup_ge_None in Hj as Hk.
      rewrite lookup_seq_ge by done. done.
  - intros k c Hc Hnext. rewrite length_fmap in Hnext.
    rewrite list_lookup_fmap in Hc.
    destruct ((chunk_at cfg sorted <$> starts) !! k) as [[fn c']|] eqn:Hk; [|done].
    injection Hc as <-.
    destruct (Hchunk _ _ Hk) as (j & _ & -> & Hj & [= _ ->]).
    destruct (lookup_lt_is_Some_2 starts (S k) Hnext) as [j' Hj'].
    apply range_up_lookup in Hj' as [-> Hlt].
    rewrite Hlen by lia. lia.
  - intros c [k Hc]%list_elem_of_lookup.
    rewrite list_lookup_fmap in Hc.
    destruct ((chunk_at cfg sorted <$> starts) !! k) as [[fn c']|] eqn:Hk; [|done].
    injection Hc as <-.
    destruct (Hchunk _ _ Hk) as (j & _ & -> & Hj & [= _ ->]).
    rewrite Hlen by lia. lia.
Qed.

Lemma chunks_partition_the_sorted_list_witness :
  0 < tweets_per_file two_per_file
  ∧ ∃ starts : list Z,
      range 0 (Z.of_nat (length three_posts)) (tweets_per_file two_per_file) = Some starts
      ∧ concat ((chunk_at two_per_file three_posts <$> starts).*2) = three_posts.
Proof.
  split; [reflexivity|].
  destruct (chunks_partition_the_sorted_list two_per_file three_posts)
    as (starts & Hrange & Hconcat & _); [reflexivity|].
  exists starts. split; [exact Hrange | exact Hconcat].
Defined.

(** ** Text lemmas *)

Lemma str_app_cons (c : ascii) (a x : string) : String c a +:+ x = String c (a +:+ x).
Proof. reflexivity. Qed.

Lemma str_app_nil_l (x : string) : "" +:+ x = x.
Proof. reflexivity. Qed.

Lemma str_app_nil_r (x : string) : x +:+ "" = x.
Proof. induction x as [|c x IH]; [done|]. by rewrite str_app_cons, IH. Qed.

Lemma str_app_assoc (a b c : string) : (a +:+ b) +:+ c = a +:+ b +:+ c.
Proof. induction a as [|d a IH]; [done|]. by rewrite !str_app_cons, IH. Qed.

Lemma str_app_length (a b : string) :
  String.length (a +:+ b) = (String.length a + String.length b)%nat.
Proof. induction a as [|d a IH]; [done|]. rewrite str_app_cons. simpl. by rewrite IH. Qed.

Lemma find_unfold (sep s : string) :
  Str.find sep s =
  if String.prefix sep s then Some (EmptyString, Str.drop (String.length sep) s)
  else match s with
       | EmptyString => None
       | String c s' =>
           match Str.find sep s' with
           | Some (b, a) => Some (String c b, a)
           | None => None
           end
       end.
Proof. by destruct s. Qed.

Lemma prefix_drop (sep : string) :
  ∀ s, String.prefix sep s = true → s = sep +:+ Str.drop (String.length sep) s.
Proof.
  induction sep as [|c sep IH]; intros s; [done|].
  destruct s as [|d s]; simpl; [done|].
  destruct (ascii_dec c d) as [->|]; [|done].
  intros H. rewrite str_app_cons. f_equal. by apply IH.
Qed.

Lemma prefix_app (sep rest : string) : String.prefix sep (sep +:+ rest) = true.
Proof.
  induction sep as [|c sep IH]; [by destruct rest|].
  rewrite str_app_cons. simpl. by destruct (ascii_dec c c).
Qed.

Lemma drop_app_length (sep rest : string) :
  Str.drop (String.length sep) (sep +:+ rest) = rest.
Proof. induction sep as [|c sep IH]; [done|]. by rewrite str_app_cons. Qed.

Lemma find_none (sep : string) : ∀ s, ¬ occurs sep s → Str.find sep s = None.
Proof.
  induction s as [|c s IH]; intros Hno; rewrite find_unfold.
  - destruct (String.prefix sep "") eqn:E; [|done].
    destruct Hno. exists "", (Str.drop (String.length sep) "").
    by apply prefix_drop.
  - destruct (String.prefix sep (String c s)) eqn:E.
    + destruct Hno. exists "", (Str.drop (String.length sep) (String c s)).
      by apply prefix_drop.
    + rewrite IH; [done|].
      intros (a & b & ->). apply Hno. by exists (String c a), b.
Qed.

Lemma find_first (sep rest : string) :
  ∀ pre,
  (∀ a b, pre +:+ sep +:+ rest = a +:+ sep +:+ b → (String.length pre ≤ String.length a)%nat) →
  Str.find sep (pre +:+ sep +:+ rest) = Some (pre, rest).
Proof.
  induction pre as [|c pre IH]; intros Hfirst; rewrite find_unfold.
  - rewrite str_app_nil_l, prefix_app. by rewrite drop_app_length.
  - destruct (String.prefix sep _) eqn:E.
    + apply prefix_drop in E. apply (Hfirst "") in E. simpl in E. lia.
    + rewrite str_app_cons, IH; [done|].
      intros a b Hab. specialize (Hfirst (String c a) b).
      rewrite !str_app_cons, Hab in Hfirst. simpl in Hfirst.
      specialize (Hfirst eq_refl). lia.
Qed.

Lemma split_none (sep s : string) : ¬ occurs sep s → Str.split sep s = [s].
Proof.
  intros Hno. unfold Str.split.
  destruct (String.length s); simpl; [done|]. by rewrite find_none.
Qed.

(** A permalink with exactly one separator splits in two. *)
Lemma split_once (sep pre rest : string) :
  sep ≠ "" →
  (∀ a b, pre +:+ sep +:+ rest = a +:+ sep +:+ b → a = pre) →
  Str.split sep (pre +:+ sep +:+ rest) = [pre; rest].
Proof.
  intros Hsep Honce. unfold Str.split.
  destruct (String.length _) as [|fuel] eqn:Hlen.
  - rewrite !str_app_length in Hlen. destruct sep; [done|]. simpl in Hlen. lia.
  - simpl. rewrite find_first.
    + f_equal. destruct fuel; simpl; [done|].
      rewrite find_none; [done|].
      intros (a & b & ->).
      specialize (Honce (pre +:+ sep +:+ a) b).
      rewrite !str_app_assoc in Honce. specialize (Honce eq_refl).
      apply (f_equal String.length) in Honce.
      rewrite !str_app_length in Honce. destruct sep; [done|]. simpl in Honce. lia.
    + intros a b Hab. by rewrite (Honce a b Hab).
Qed.

Lemma find_char (c : ascii) (q : string) :
  ∀ seg, ¬ occurs (String c "") seg →
  Str.find (String c "") (seg +:+ String c "" +:+ q) = Some (seg, q).
Proof.
  induction seg as [|d seg IH]; intros Hno; rewrite find_unfold.
  - rewrite str_app_nil_l, prefix_app. by rewrite drop_app_length.
  - rewrite str_app_cons. simpl String.prefix.
    destruct (ascii_dec c d) as [->|Hne].
    + destruct Hno. by exists "", seg.
    + rewrite IH; [done|].
      intros (a & b & ->). apply Hno. by exists (String d a), b.
Qed.

Lemma split_first_char (c : ascii) (seg q : string) :
  ¬ occurs (String c "") seg →
  Str.first (Str.split (String c "") (seg +:+ String c "" +:+ q)) = seg.
Proof.
  intros Hno. unfold Str.split.
  destruct (String.length _) as [|fuel] eqn:Hlen.
  - rewrite !str_app_length in Hlen. simpl in Hlen. lia.
  - simpl. by rewrite find_char.
Qed.

(** ** The extractor, read back from its result *)

Lemma parse_some (n : Node) (t : Tweet) :
  _parse_tweet_element n = Some t →
  ∃ tweet_url,
    permalink n = Some tweet_url ∧ tweet_url ≠ ""
    ∧ id t = tweet_id_of tweet_url
    ∧ url t = "https://twitter.com" +:+ tweet_url
    ∧ images t = extract_images (media_imgs n)
    ∧ videos t = extract_videos n tweet_url
    ∧ quoted_tweet t =
        match quoted_candidate n ≫= _parse_tweet_element with
        | Some q => if bool_decide (id q ≠ id t) then Some q else None
        | None => None
        end.
Proof.
  unfold permalink, quoted_candidate.
  destruct n as [links ? ? ? ? ? ? ? ? quotes []]; simpl; [done|].
  destruct (head links ≫= get_attribute "href") as [tweet_url|]; [|done].
  case_bool_decide as Hurl; [done|].
  intros [= <-]. exists tweet_url. simpl.
  repeat (split; [done|]).
  destruct quotes as [|[|m ?] ?]; done.
Qed.

Lemma parse_none (n : Node) :
  _parse_tweet_element n = None
  ↔ parse_raises n = true ∨ permalink n = None ∨ permalink n = Some "".
Proof.
  unfold permalink.
  destruct n as [links ? ? ? ? ? ? ? ? quotes []]; simpl; [naive_solver|].
  destruct (head links ≫= get_attribute "href") as [tweet_url|]; [|naive_solver].
  case_bool_decide; naive_solver.
Qed.

(** ** The id of an extracted post *)

Example id_of_plain_permalink :
  id <$> _parse_tweet_element (link_only "/ann/status/1234567890?s=20") = Some "1234567890".
Proof. vm_compute. reflexivity. Qed.

Example id_of_photo_permalink :
  id <$> _parse_tweet_element (link_only "/ann/status/123/photo/1") = Some "123/photo/1".
Proof. vm_compute. reflexivity. Qed.

(** C6, as stated, fails: for the link [/ann/status/123/photo/1] the
    path segment after [/status/] is [123], the extracted id is not. *)
Lemma id_is_not_always_the_status_segment :
  ¬ (∀ (n : Node) (t : Tweet) (tweet_url : string),
       _parse_tweet_element n = Some t → permalink n = Some tweet_url →
       spec_status_segment tweet_url = Some (id t)).
Proof.
  intros H.
  specialize (H (link_only "/ann/status/123/photo/1") _ _ eq_refl eq_refl).
  vm_compute in H. discriminate H.
Qed.

Lemma take_until_segment (seg query : string) :
  ¬ occurs "/" seg → ¬ occurs "?" seg →
  query = "" ∨ (∃ q, query = "?" +:+ q) →
  take_until (λ c, bool_decide (c ∈ ["/"; "?"]%char)) (seg +:+ query) = seg.
Proof.
  intros Hslash Hquest Hquery.
  induction seg as [|c seg IH].
  - destruct Hquery as [->|[q ->]]; done.
  - rewrite str_app_cons. simpl. case_bool_decide as Hc.
    + apply elem_of_cons in Hc as [->|Hc].
      * destruct Hslash. by exists "", seg.
      * apply list_elem_of_singleton in Hc as ->. destruct Hquest. by exists "", seg.
    + f_equal. apply IH.
      * intros (a & b & ->). apply Hslash. by exists (String c a), b.
      * intros (a & b & ->). apply Hquest. by exists (String c a), b.
Qed.

(** C6, amended.  The id of an extracted post is the text of the
    permalink after the last [/status/] separator, cut at the first
    [?].  Where [/status/] occurs once in the permalink, followed by
    text [seg] and at most a query string, the id is [seg]; it is the
    path segment after [/status/] when [seg] holds no further [/].
    Extraction returns no result whenever the node offers no status
    link with a non-empty href. *)
Theorem tweet_id_is_text_after_status_separator (n : Node) :
  (∀ t, _parse_tweet_element n = Some t →
      ∃ tweet_url,
        permalink n = Some tweet_url ∧ tweet_url ≠ ""
        ∧ id t = Str.first (Str.split "?" (Str.final (Str.split "/status/" tweet_url)))
        ∧ ∀ pre seg query,
            tweet_url = pre +:+ "/status/" +:+ seg +:+ query →
            (∀ a b, tweet_url = a +:+ "/status/" +:+ b → a = pre) →
            ¬ occurs "?" seg →
            query = "" ∨ (∃ q, query = "?" +:+ q) →
            id t = seg
            ∧ (¬ occurs "/" seg → spec_status_segment tweet_url = Some (id t)))
  ∧ (permalink n = None ∨ permalink n = Some "" → _parse_tweet_element n = None).
Proof.
  split; [|intros Hno; apply parse_none; by right].
  intros t Hparse.
  destruct (parse_some n t Hparse) as (tweet_url & Hlink & Hne & Hid & _).
  exists tweet_url. repeat (split; [done|]).
  intros pre seg query -> Honce Hquest Hquery.
  assert (id t = seg) as Hseg.
  { rewrite Hid. unfold tweet_id_of.
    rewrite split_once; [|done|done]. unfold Str.final at 1. simpl.
    destruct Hquery as [->|[q ->]].
    - rewrite str_app_nil_r, split_none; done.
    - by apply (split_first_char "?"). }
  split; [done|]. intros Hslash.
  unfold spec_status_segment. rewrite find_first.
  - rewrite Hseg. f_equal. by apply take_until_segment.
  - intros a b Hab. by rewrite (Honce a b Hab).
Qed.

(** ** The quoted post *)

Lemma Tweet_quoted_ind (P : Tweet → Prop) :
  (∀ t, (∀ q, quoted_tweet t = Some q → P q) → P t) → ∀ t, P t.
Proof.
  intros Hstep. fix IH 1. intros t. apply Hstep.
  destruct t as [? ? ? ? ? ? ? ? [q|]]; simpl; intros q' Hq.
  - injection Hq as <-. apply IH.
  - discriminate Hq.
Qed.

Lemma parse_quoted (n : Node) (t q : Tweet) :
  _parse_tweet_element n = Some t →
  quoted_tweet t = Some q ↔
  ∃ m, quoted_candidate n = Some m ∧ _parse_tweet_element m = Some q ∧ id q ≠ id t.
Proof.
  intros Hparse.
  destruct (parse_some n t Hparse) as (tweet_url & _ & _ & _ & _ & _ & _ & Hq).
  rewrite Hq.
  destruct (quoted_candidate n) as [m|]; simpl.
  - destruct (_parse_tweet_element m) as [q'|] eqn:Hm.
    + case_bool_decide as Hne.
      * split.
        -- intros [= <-]. by exists m.
        -- intros (m0 & [= <-] & Hm0 & _). congruence.
      * split; [done|].
        intros (m0 & [= <-] & Hm0 & Hne'). congruence.
    + split; [done|]. intros (m0 & [= <-] & Hm0 & _). congruence.
  - split; [done|]. by intros (m0 & ? & _).
Qed.

Lemma parse_quotes_differ (t : Tweet) :
  ∀ n, _parse_tweet_element n = Some t → quotes_differ t.
Proof.
  induction t as [t IH] using Tweet_quoted_ind. intros n Hparse.
  destruct t as [? ? ? ? ? ? ? ? [q|]]; simpl; [|done].
  destruct (proj1 (parse_quoted n _ q Hparse) eq_refl) as (m & _ & Hm & Hne).
  split; [done|]. by apply (IH q eq_refl m).
Qed.

(** C2.  When the nested article of the quote container parses to a
    post with the id of the outer post, the outer post has no quoted
    post; a quoted post is recorded exactly when the nested extraction
    succeeds with a different id, so at every depth a quoted post
    differs in id from its container. *)
Theorem quote_with_outer_id_is_dropped (n : Node) (t : Tweet) :
  _parse_tweet_element n = Some t →
  (∀ m q, quoted_candidate n = Some m → _parse_tweet_element m = Some q →
          id q = id t → quoted_tweet t = None)
  ∧ (∀ q, quoted_tweet t = Some q ↔
          ∃ m, quoted_candidate n = Some m ∧ _parse_tweet_element m = Some q
               ∧ id q ≠ id t)
  ∧ quotes_differ t.
Proof.
  intros Hparse. split; [|split].
  - intros m q Hm Hq Hid.
    destruct (quoted_tweet t) as [q'|] eqn:Hq'; [|done].
    apply (parse_quoted n t q' Hparse) in Hq' as (m' & Hm' & Hq' & Hne).
    congruence.
  - intros q. by apply parse_quoted.
  - by apply (parse_quotes_differ t n).
Qed.

Lemma quote_with_outer_id_is_dropped_witness :
  ∃ t, _parse_tweet_element self_quoting = Some t
       ∧ id t = "77" ∧ quoted_tweet t = None ∧ quotes_differ t.
Proof.
  eexists. split; [vm_compute; reflexivity|]. split; [reflexivity|].
  destruct (quote_with_outer_id_is_dropped self_quoting _ eq_refl) as (Hdrop & _ & Hdiff).
  split; [|exact Hdiff].
  eapply Hdrop; [reflexivity | vm_compute; reflexivity | reflexivity].
Defined.

(** ** Videos *)

Lemma values_app (attr : string) (e1 e2 : list Element) :
  values attr (e1 ++ e2) = values attr e1 ++ values attr e2.
Proof. apply omap_app. Qed.

Lemma append_unique_spec (attr : string) (keep : string → bool) (els : list Element) :
  ∀ vs : list string,
  ∃ new : list string,
    append_unique attr keep els vs = vs ++ new
    ∧ sublist new (filter (λ v, keep v = true) (values attr els))
    ∧ (NoDup vs → NoDup (vs ++ new))
    ∧ (∀ v, v ∈ vs ++ new ↔ v ∈ vs ∨ (v ∈ values attr els ∧ keep v = true)).
Proof.
  induction els as [|e rest IH]; intros vs; simpl.
  - exists []. rewrite app_nil_r. split; [done|]. split; [constructor|].
    split; [done|]. intros v. unfold values. simpl.
    rewrite elem_of_nil. tauto.
  - unfold values. simpl. fold (values attr rest).
    destruct (get_attribute attr e) as [v|]; simpl; [|apply IH].
    case_bool_decide as Hv; [apply IH|].
    destruct (keep v) eqn:Hkeep; simpl.
    + case_bool_decide as Hin.
      * destruct (IH (vs ++ [v])) as (new & -> & Hsub & Hnd & Hmem).
        exists (v :: new). rewrite <- app_assoc. split; [done|].
        split; [rewrite filter_cons_True by done; by apply sublist_skip|].
        split.
        -- intros Hvs. change (v :: new) with ([v] ++ new).
           rewrite (assoc_L (++) vs [v] new). apply Hnd.
           apply NoDup_app. split; [done|]. split; [|apply NoDup_singleton].
           intros x Hx ->%list_elem_of_singleton. done.
        -- intros x. change (v :: new) with ([v] ++ new).
           rewrite (assoc_L (++) vs [v] new), Hmem.
           rewrite elem_of_app, list_elem_of_singleton, elem_of_cons.
           intuition (subst; auto).
      * destruct (IH vs) as (new & -> & Hsub & Hnd & Hmem).
        exists new. split; [done|].
        split; [rewrite filter_cons_True by done; by apply sublist_cons|].
        split; [done|].
        intros x. rewrite Hmem, elem_of_cons. intuition (subst; auto).
    + destruct (IH vs) as (new & -> & Hsub & Hnd & Hmem).
      exists new. split; [done|].
      split; [rewrite filter_cons_False by congruence; done|].
      split; [done|].
      intros x. rewrite Hmem, elem_of_cons. intuition (subst; auto; congruence).
Qed.

Lemma filter_always {A} (l : list A) : filter (λ _ : A, true = true) l = l.
Proof. induction l as [|x l IH]; [done|]. by rewrite filter_cons_True, IH. Qed.

Lemma iframe_videos_spec (n : Node) :
  NoDup (iframe_videos n)
  ∧ sublist (iframe_videos n) (values "src" (youtube_iframes n ++ vimeo_iframes n))
  ∧ (∀ v, v ∈ iframe_videos n ↔ v ∈ values "src" (youtube_iframes n ++ vimeo_iframes n)).
Proof.
  unfold iframe_videos.
  destruct (append_unique_spec "src" (λ _, true) (youtube_iframes n) [])
    as (new1 & -> & Hsub1 & Hnd1 & Hmem1).
  destruct (append_unique_spec "src" (λ _, true) (vimeo_iframes n) ([] ++ new1))
    as (new2 & -> & Hsub2 & Hnd2 & Hmem2).
  rewrite filter_always in Hsub1, Hsub2. simpl in *.
  split; [apply Hnd2, Hnd1; constructor|].
  split; [rewrite values_app; by apply sublist_app|].
  intros v. rewrite Hmem2, Hmem1, values_app. set_solver.
Qed.

Lemma card_videos_spec (n : Node) :
  NoDup (card_videos n)
  ∧ sublist (card_videos n) (filter (λ v, is_video_link v = true) (values "href" (card_links n)))
  ∧ (∀ v, v ∈ card_videos n ↔ v ∈ values "href" (card_links n) ∧ is_video_link v = true).
Proof.
  unfold card_videos.
  destruct (append_unique_spec "href" is_video_link (card_links n) [])
    as (new & -> & Hsub & Hnd & Hmem). simpl in *.
  split; [apply Hnd; constructor|]. split; [done|].
  intros v. rewrite Hmem. set_solver.
Qed.

Lemma embeds_have_sources (n : Node) :
  iframes_match_selectors n → youtube_iframes n ++ vimeo_iframes n ≠ [] →
  values "src" (youtube_iframes n ++ vimeo_iframes n) ≠ [].
Proof.
  intros [Hy Hv] Hsome.
  assert (Forall (λ e, ∃ src, get_attribute "src" e = Some src ∧ src ≠ "")
            (youtube_iframes n ++ vimeo_iframes n)) as Hall.
  { apply Forall_app. split; (eapply Forall_impl; [eassumption|]);
      intros e (src & Hsrc & Hc); exists src; (split; [done|]); by intros ->. }
  destruct (youtube_iframes n ++ vimeo_iframes n) as [|e els]; [done|].
  apply Forall_cons in Hall as [(src & Hsrc & Hne) _].
  unfold values. simpl. rewrite Hsrc. simpl. by case_bool_decide.
Qed.

Lemma extract_videos_chain (n : Node) (tweet_url : string) :
  extract_videos n tweet_url =
  match iframe_videos n with
  | [] =>
      match card_videos n with
      | [] => if nonempty (native_videos n) then ["https://twitter.com" +:+ tweet_url] else []
      | from_cards => from_cards
      end
  | from_iframes => from_iframes
  end.
Proof.
  unfold extract_videos, iframe_videos, card_videos.
  destruct (append_unique "src" _ (vimeo_iframes n) _); [|done].
  destruct (append_unique "href" _ _ _); [|done].
  by destruct (native_videos n).
Qed.

(** C3.  The videos of a post come from the first rule of the chain
    that yields anything: the iframe sources (YouTube selector first,
    then Vimeo) if there is one; else the card links that name a video
    domain, if there is one; else the post's own permalink alone, if
    the node has a native video element; each rule's list is without
    repetition.  So a node with an iframe source gets exactly the
    iframe sources, whatever cards and video elements it has. *)
Theorem videos_follow_the_fallback_chain (n : Node) (tweet_url : string) :
  let videos := extract_videos n tweet_url in
  let iframe_srcs := values "src" (youtube_iframes n ++ vimeo_iframes n) in
  let card_hrefs := filter (λ v, is_video_link v = true) (values "href" (card_links n)) in
  NoDup videos
  ∧ (NoDup (iframe_videos n) ∧ sublist (iframe_videos n) iframe_srcs
     ∧ ∀ v, v ∈ iframe_videos n ↔ v ∈ iframe_srcs)
  ∧ (NoDup (card_videos n) ∧ sublist (card_videos n) card_hrefs
     ∧ ∀ v, v ∈ card_videos n ↔ v ∈ card_hrefs)
  ∧ (iframe_srcs ≠ [] → videos = iframe_videos n)
  ∧ (iframe_srcs = [] → card_hrefs ≠ [] → videos = card_videos n)
  ∧ (iframe_srcs = [] → card_hrefs = [] →
     videos = if nonempty (native_videos n)
              then ["https://twitter.com" +:+ tweet_url] else [])
  ∧ (iframes_match_selectors n → youtube_iframes n ++ vimeo_iframes n ≠ [] →
     videos = iframe_videos n ∧ videos ≠ []).
Proof.
  simpl.
  pose proof (embeds_have_sources n) as Hembed.
  destruct (iframe_videos_spec n) as (Hnd1 & Hsub1 & Hmem1).
  destruct (card_videos_spec n) as (Hnd2 & Hsub2 & Hmem2).
  assert (∀ v, v ∈ card_videos n ↔
               v ∈ filter (λ v, is_video_link v = true) (values "href" (card_links n)))
    as Hmem2'.
  { intros v. rewrite Hmem2, list_elem_of_filter. tauto. }
  assert (∀ (l1 l2 : list string), (∀ v, v ∈ l1 ↔ v ∈ l2) → l1 = [] ↔ l2 = []) as Hnil.
  { intros l1 l2 Hm. destruct l1 as [|a l1], l2 as [|b l2]; split; try done; intros _.
    - exfalso. apply (not_elem_of_nil b), Hm. left.
    - exfalso. apply (not_elem_of_nil a), Hm. left. }
  rewrite extract_videos_chain.
  assert (values "src" (youtube_iframes n ++ vimeo_iframes n) ≠ [] →
          match iframe_videos n with
          | [] =>
              match card_videos n with
              | [] => if nonempty (native_videos n)
                      then ["https://twitter.com" +:+ tweet_url] else []
              | from_cards => from_cards
              end
          | from_iframes => from_iframes
          end = iframe_videos n ∧ iframe_videos n ≠ []) as Hfirst.
  { intros Hsrc. destruct (iframe_videos n) eqn:E; [|done].
    destruct Hsrc. by apply (Hnil _ _ Hmem1). }
  split; [|split; [done|split; [done|split; [|split; [|split]]]]].
  - destruct (iframe_videos n); [|done].
    destruct (card_videos n); [|done].
    destruct (nonempty _); [apply NoDup_singleton | constructor].
  - intros Hsrc. by apply Hfirst.
  - intros Hsrc Hcard. apply (Hnil _ _ Hmem1) in Hsrc. rewrite Hsrc.
    destruct (card_videos n) eqn:E; [|done].
    destruct Hcard. by apply (Hnil _ _ Hmem2').
  - intros Hsrc Hcard. apply (Hnil _ _ Hmem1) in Hsrc. apply (Hnil _ _ Hmem2') in Hcard.
    by rewrite Hsrc, Hcard.
  - intros Hsel Hsome. destruct (Hfirst (Hembed Hsel Hsome)) as [-> ?]. done.
Qed.

Example videos_of_embed_and_native :
  videos <$> _parse_tweet_element embed_and_native
  = Some ["https://www.youtube.com/embed/abc"].
Proof. vm_compute. reflexivity. Qed.

(** ** Images *)

Lemma re_sub_unfold (fuel : nat) (s : string) :
  re_sub_name_fuel (S fuel) s =
  match s with
  | EmptyString => EmptyString
  | String c s' =>
      if String.prefix "&name=" s then
        match Str.drop 6 s with
        | String w rest =>
            if Str.is_word w
            then "&name=large" +:+ re_sub_name_fuel fuel (Str.drop_while Str.is_word rest)
            else String c (re_sub_name_fuel fuel s')
        | EmptyString => String c (re_sub_name_fuel fuel s')
        end
      else String c (re_sub_name_fuel fuel s')
  end.
Proof. reflexivity. Qed.

Lemma drop_length (n : nat) : ∀ s, (String.length (Str.drop n s) ≤ String.length s)%nat.
Proof.
  induction n as [|n IH]; intros [|c s]; simpl; try lia.
  specialize (IH s). lia.
Qed.

Lemma drop_while_length (p : ascii → bool) (s : string) :
  (String.length (Str.drop_while p s) ≤ String.length s)%nat.
Proof.
  induction s as [|c s IH]; simpl; [lia|].
  destruct (p c); simpl; lia.
Qed.

Lemma re_sub_fuel_enough (f1 : nat) :
  ∀ (f2 : nat) (s : string),
  (String.length s ≤ f1)%nat → (String.length s ≤ f2)%nat →
  re_sub_name_fuel f1 s = re_sub_name_fuel f2 s.
Proof.
  induction f1 as [|f1 IH]; intros f2 s H1 H2.
  - destruct s; [by destruct f2 | simpl in H1; lia].
  - destruct f2 as [|f2]; [destruct s; [done | simpl in H2; lia]|].
    rewrite !re_sub_unfold.
    destruct s as [|c s]; [done|]. simpl in H1, H2.
    assert (re_sub_name_fuel f1 s = re_sub_name_fuel f2 s) as Hs by (apply IH; lia).
    destruct (String.prefix _ _); [|by rewrite Hs].
    destruct (Str.drop 6 (String c s)) as [|w rest] eqn:Hdrop; [by rewrite Hs|].
    destruct (Str.is_word w); [|by rewrite Hs].
    f_equal. pose proof (drop_length 5 s) as Hd.
    change (Str.drop 6 (String c s)) with (Str.drop 5 s) in Hdrop.
    rewrite Hdrop in Hd. simpl in Hd.
    pose proof (drop_while_length Str.is_word rest).
    apply IH; lia.
Qed.

Lemma re_sub_no_match (fuel : nat) :
  ∀ s, ¬ has_size_param s → re_sub_name_fuel fuel s = s.
Proof.
  induction fuel as [|fuel IH]; intros s Hno; [done|].
  rewrite re_sub_unfold. destruct s as [|c s]; [done|].
  assert (re_sub_name_fuel fuel s = s) as Hs.
  { apply IH. intros (pre & w & rest & -> & Hw). apply Hno.
    by exists (String c pre), w, rest. }
  destruct (String.prefix _ _) eqn:E; [|by rewrite Hs].
  apply prefix_drop in E. change (String.length "&name=") with 6%nat in E.
  destruct (Str.drop 6 (String c s)) as [|w rest]; [by rewrite Hs|].
  destruct (Str.is_word w) eqn:Hw; [|by rewrite Hs].
  destruct Hno. by exists "", w, rest.
Qed.

Lemma prefix_cons_true (a b : ascii) (s1 s2 : string) :
  String.prefix (String a s1) (String b s2) = true → a = b ∧ String.prefix s1 s2 = true.
Proof. simpl. by destruct (ascii_dec a b). Qed.

(** One more character of [pre] read against the pattern in [E]. *)
Ltac next_char pre E :=
  destruct pre as [|? pre];
  [ rewrite str_app_nil_l, str_app_cons in E;
    apply prefix_cons_true in E as [? _]; discriminate
  | rewrite str_app_cons in E; apply prefix_cons_true in E as [<- E] ].

Lemma no_early_match (c : ascii) (pre x : string) :
  ¬ occurs "&name=" (String c pre) →
  String.prefix "&name=" (String c (pre +:+ "&name=" +:+ x)) = false.
Proof.
  intros Hno. destruct (String.prefix _ _) eqn:E; [|done]. destruct Hno.
  apply prefix_cons_true in E as [<- E].
  do 5 next_char pre E.
  by exists "", pre.
Qed.

Lemma size_param_head (x : string) :
  "&name=" +:+ x
  = String "&" (String "n" (String "a" (String "m" (String "e" (String "=" x))))).
Proof. reflexivity. Qed.

Lemma re_sub_match (w : ascii) (rest : string) :
  Str.is_word w = true →
  ∀ pre, ¬ occurs "&name=" pre →
  re_sub_name (pre +:+ "&name=" +:+ String w rest)
  = pre +:+ "&name=large" +:+ re_sub_name (Str.drop_while Str.is_word rest).
Proof.
  intros Hw. unfold re_sub_name.
  assert (∀ pre fuel, ¬ occurs "&name=" pre →
            (String.length (pre +:+ "&name=" +:+ String w rest) ≤ fuel)%nat →
            re_sub_name_fuel fuel (pre +:+ "&name=" +:+ String w rest)
            = pre +:+ "&name=large"
                +:+ re_sub_name_fuel (String.length (Str.drop_while Str.is_word rest))
                      (Str.drop_while Str.is_word rest)) as Hgen.
  { induction pre as [|c pre IH]; intros fuel Hno Hfuel.
    - rewrite str_app_nil_l in Hfuel. rewrite (str_app_nil_l ("&name=large" +:+ _)).
      rewrite str_app_nil_l.
      destruct fuel as [|fuel]; [simpl in Hfuel; lia|].
      rewrite size_param_head, re_sub_unfold. simpl. rewrite Hw. f_equal.
      rewrite size_param_head in Hfuel. simpl in Hfuel.
      pose proof (drop_while_length Str.is_word rest).
      apply re_sub_fuel_enough; lia.
    - rewrite !(str_app_cons c pre) in Hfuel |- *. simpl in Hfuel.
      destruct fuel as [|fuel]; [lia|].
      rewrite re_sub_unfold, no_early_match by done.
      rewrite (str_app_cons c pre ("&name=large" +:+ _)).
      f_equal. apply IH; [|lia].
      intros (a & b & ->). apply Hno. by exists (String c a), b. }
  intros pre Hno. by apply Hgen.
Qed.

Lemma extract_images_values (els : list Element) :
  extract_images els = re_sub_name <$> values "src" els.
Proof.
  induction els as [|e els IH]; [done|].
  unfold values in *. simpl.
  destruct (get_attribute "src" e) as [src|]; simpl; [|done].
  case_bool_decide; simpl; [done|]. by rewrite IH.
Qed.

Lemma str_cons_eq_app (c : ascii) (s p x : string) :
  String c s = p +:+ x →
  (p = "" ∧ String c s = x) ∨ (∃ p', p = String c p' ∧ s = p' +:+ x).
Proof.
  destruct p as [|d p]; [by left|].
  rewrite str_app_cons. intros [= -> ->]. right. by exists p.
Qed.

Lemma question_name_head (x : string) :
  "?name=" +:+ x
  = String "?" (String "n" (String "a" (String "m" (String "e" (String "=" x))))).
Proof. reflexivity. Qed.

(** One character of the text on the left of [H] read against a
    decomposition [p +:+ "&name=" +:+ y] on its right. *)
Ltac read_against p H :=
  apply str_cons_eq_app in H as [[-> H]|(p' & -> & H)];
  [ rewrite size_param_head in H; discriminate H | clear p; rename p' into p ].

(** One character of [base], followed by [?name=], read against the
    rest of the pattern on the right of [H]. *)
Ltac read_base base H :=
  destruct base as [|? base];
  [ rewrite str_app_nil_l, question_name_head in H; discriminate H
  | rewrite str_app_cons in H; injection H as -> H ].

(** A size parameter written [?name=] brings no match of [&name=]. *)
Lemma question_name_no_match (v : string) :
  ∀ base p y,
  base +:+ "?name=" +:+ v = p +:+ "&name=" +:+ y →
  occurs "&name=" base ∨ occurs "&name=" v.
Proof.
  induction base as [|b base IH]; intros p y H.
  - rewrite str_app_nil_l, question_name_head in H. right.
    do 6 read_against p H.
    by exists p, y.
  - rewrite str_app_cons in H.
    apply str_cons_eq_app in H as [[-> H]|(p' & -> & H)].
    + left. rewrite size_param_head in H. injection H as -> H.
      do 5 read_base base H.
      by exists "", base.
    + destruct (IH _ _ H) as [(a & c & ->)|?]; [left|by right].
      by exists (String b a), c.
Qed.

(** C10.  On ASCII sources, where the word characters of the model
    are those of [\w]: every image source that is present and
    non-empty is appended after
    [re.sub(r'&name=\w+', '&name=large', src)].  That substitution
    changes nothing in a source without a match of [&name=] followed
    by a word character: in particular a source whose size parameter
    is written [?name=...], with no [&name=] before or after it, is
    appended unchanged.  At a match the word characters after [&name=]
    are replaced by [large] and the rewriting goes on behind them. *)
Theorem image_size_rewritten_only_after_ampersand :
  (∀ els, Forall (λ src, is_ascii src = true) (values "src" els) →
     extract_images els = re_sub_name <$> values "src" els)
  ∧ (∀ src, is_ascii src = true → ¬ has_size_param src → re_sub_name src = src)
  ∧ (∀ img src, get_attribute "src" img = Some src → src ≠ "" →
       is_ascii src = true →
       ¬ has_size_param src → extract_images [img] = [src])
  ∧ (∀ base v, is_ascii base = true → is_ascii v = true →
       ¬ occurs "&name=" base → ¬ occurs "&name=" v →
       re_sub_name (base +:+ "?name=" +:+ v) = base +:+ "?name=" +:+ v)
  ∧ (∀ pre w rest, is_ascii (pre +:+ String w rest) = true →
       ¬ occurs "&name=" pre → Str.is_word w = true →
       re_sub_name (pre +:+ "&name=" +:+ String w rest)
       = pre +:+ "&name=large" +:+ re_sub_name (Str.drop_while Str.is_word rest)).
Proof.
  split; [intros els _; apply extract_images_values|].
  split; [intros src _ Hno; by apply re_sub_no_match|].
  split.
  { intros img src Hsrc Hne _ Hno. simpl. rewrite Hsrc.
    case_bool_decide; [done|]. f_equal. by apply re_sub_no_match. }
  split.
  - intros base v _ _ Hbase Hv. apply re_sub_no_match.
    intros (pre & c & rest & Heq & _).
    by destruct (question_name_no_match v base pre (String c rest) Heq).
  - intros pre w rest _ Hno Hw. by apply re_sub_match.
Qed.

Example first_parameter_size_is_kept :
  extract_images
    [{| attributes := {[ "src" := "https://pbs.twimg.com/media/Gx1?name=small" ]}; inner_text := "" |};
     {| attributes := {[ "src" := "https://pbs.twimg.com/media/Gx2?format=jpg&name=small" ]}; inner_text := "" |};
     {| attributes := {[ "src" := "https://pbs.twimg.com/media/Gx3.jpg" ]}; inner_text := "" |}]
  = ["https://pbs.twimg.com/media/Gx1?name=small";
     "https://pbs.twimg.com/media/Gx2?format=jpg&name=large";
     "https://pbs.twimg.com/media/Gx3.jpg"].
Proof. vm_compute. reflexivity. Qed.

(** ** Serializing twice *)

(** C7, as stated, fails: two passes over one list, a second apart,
    write different bytes. *)
Lemma reserialized_files_differ_in_the_export_stamp :
  ¬ (∀ (cfg : Config) (l : list Tweet) (now1 now2 : nat → string)
       (dl : nat → string → bool) (fmt : string → option string),
       files (_save_to_markdown cfg (mkRuntime now2 dl fmt) l)
       = files (_save_to_markdown cfg (mkRuntime now1 dl fmt) l)).
Proof.
  intros H.
  specialize (H default_config [sample_tweet "1" "2024-01-03T10:00:00.000Z"]
                (λ _, "2025-03-01 10:00:00") (λ _, "2025-03-01 10:00:01")
                (λ _ _, true) strftime_sample).
  vm_compute in H. discriminate H.
Qed.

(** C7, amended.  A second pass over the list the first pass left,
    made while the clock, the downloads and the time formatting answer
    as they did in the first, writes the same files with the same
    bytes under the same names, in the same order, and leaves the list
    as it was. *)
Theorem reserializing_under_one_runtime_rewrites_the_same_files
    (cfg : Config) (rt : Runtime) (l : list Tweet) :
  let first_pass := _save_to_markdown cfg rt l in
  let second_pass := _save_to_markdown cfg rt (collected_after first_pass) in
  files second_pass = files first_pass
  ∧ collected_after second_pass = collected_after first_pass
  ∧ raised second_pass = raised first_pass.
Proof.
  simpl. rewrite save_collected_after.
  assert (_save_to_markdown cfg rt (sort_by_timestamp_desc l) = _save_to_markdown cfg rt l)
    as Hsame.
  { destruct l as [|t l]; [done|].
    unfold _save_to_markdown.
    destruct (sort_by_timestamp_desc (t :: l)) as [|u sorted] eqn:E.
    { pose proof (sort_perm (t :: l)) as Hp. rewrite E in Hp.
      by apply Permutation_nil_cons in Hp. }
    rewrite <- E. by rewrite sort_idem. }
  rewrite Hsame. by rewrite save_collected_after.
Qed.

(** ** What a pass does to the collected list *)

(** C8, as stated, fails: a pass over two posts collected oldest
    first leaves them newest first. *)
Lemma serializer_reorders_the_collected_list :
  ¬ (∀ (cfg : Config) (rt : Runtime) (l : list Tweet),
       collected_after (_save_to_markdown cfg rt l) = l).
Proof.
  intros H.
  specialize (H default_config (runtime_at "2025-03-01 10:00:00")
                [sample_tweet "1" "2024-01-01T09:00:00.000Z";
                 sample_tweet "2" "2024-01-03T10:00:00.000Z"]).
  vm_compute in H. discriminate H.
Qed.

Lemma extract_tweets_elem (ns : list Node) (t : Tweet) :
  t ∈ _extract_tweets_from_page ns → ∃ n, n ∈ ns ∧ _parse_tweet_element n = Some t.
Proof.
  induction ns as [|n ns IH]; simpl; [by intros ?%elem_of_nil|].
  destruct (_parse_tweet_element n) as [u|] eqn:Hn.
  - intros [->|Hin]%elem_of_cons.
    + exists n. split; [left | done].
    + destruct (IH Hin) as (m & ? & ?). exists m. split; [by right | done].
  - intros Hin. destruct (IH Hin) as (m & ? & ?). exists m. split; [by right | done].
Qed.

Section Provenance.
Context (cfg : Config) (t : Tweet).

Lemma iteration_provenance (o : Observation) (st : LoopState) :
  t ∈ tweets_collected (step_state (iteration cfg o st)) →
  t ∈ tweets_collected st ∨ ∃ n, n ∈ articles o ∧ _parse_tweet_element n = Some t.
Proof.
  unfold iteration.
  case_bool_decide; [by left|].
  destruct (track_unique_fresh (_extract_tweets_from_page (articles o))
              (tweets_seen st) (tweets_collected st) 0)
    as (fresh & -> & Hsub & _).
  assert (t ∈ tweets_collected st ++ fresh →
          t ∈ tweets_collected st ∨ ∃ n, n ∈ articles o ∧ _parse_tweet_element n = Some t)
    as Hfrom.
  { intros [?|Hin]%elem_of_app; [by left|]. right.
    apply extract_tweets_elem. by eapply elem_of_sublist. }
  destruct (_ && _); [done|].
  case_bool_decide; [done|].
  destruct (_ && _); [|done].
  assert (t ∈ collected_after (_save_to_markdown cfg (runtime o) (tweets_collected st ++ fresh)) →
          t ∈ tweets_collected st ++ fresh) as Hsorted.
  { rewrite save_collected_after. by rewrite sort_perm. }
  destruct (raised _); simpl; auto.
Qed.

Lemma collect_from_provenance (page : list Observation) :
  ∀ st, t ∈ tweets_collected (state (collect_from cfg page st)) →
        t ∈ tweets_collected st ∨ extracted_from page t.
Proof.
  induction page as [|o later IH]; intros st; simpl; [by left|].
  pose proof (iteration_provenance o st) as Hstep.
  assert (∀ st', (t ∈ tweets_collected st' →
                  t ∈ tweets_collected st ∨ ∃ n, n ∈ articles o ∧ _parse_tweet_element n = Some t) →
                 t ∈ tweets_collected st' → t ∈ tweets_collected st ∨ extracted_from (o :: later) t)
    as Hhere.
  { intros st' Hst' Hin. destruct (Hst' Hin) as [?|(n & ? & ?)]; [by left|].
    right. exists o, n. split; [left | done]. }
  destruct (iteration cfg o st) as [st' ?|st'|st' ?|st']; simpl in *; [|by apply Hhere..].
  intros [Hin|(o' & n & ? & ? & ?)]%IH; [by apply (Hhere st')|].
  right. exists o', n. split; [by right | done].
Qed.

End Provenance.

(** C8, amended.  A pass leaves the collected list holding the same
    posts, ordered by timestamp descending, the posts of one timestamp
    in the order they had (a stable sort): the order is the one before
    the call exactly when that was already descending by timestamp.
    No component alters a post: whatever the page showed, every post
    in the collected list is, unchanged, what the extractor returned
    for one of the articles shown. *)
Theorem serializer_sorts_the_collected_list_in_place :
  (∀ (cfg : Config) (rt : Runtime) (l : list Tweet),
     let after := collected_after (_save_to_markdown cfg rt l) in
     after ≡ₚ l
     ∧ StronglySorted (λ a b, (timestamp b ≤ timestamp a)%string) after
     ∧ (∀ k, filter (λ t, timestamp t = k) after = filter (λ t, timestamp t = k) l)
     ∧ (after = l ↔ StronglySorted (λ a b, (timestamp b ≤ timestamp a)%string) l))
  ∧ (∀ (cfg : Config) (page : list Observation) (t : Tweet),
     t ∈ tweets_collected (state (_collect_all_bookmarks cfg page)) →
     ∃ o n, o ∈ page ∧ n ∈ articles o ∧ _parse_tweet_element n = Some t).
Proof.
  split.
  - intros cfg rt l. simpl. rewrite save_collected_after.
    split; [apply sort_perm|]. split; [apply sort_sorted|].
    split; [intros k; apply sort_stable|]. split.
    + intros <-. apply sort_sorted.
    + apply sort_sorted_id.
  - intros cfg page t Hin.
    apply collect_from_provenance in Hin as [Hin|?]; [|done].
    by apply elem_of_nil in Hin.
Qed.

(** ** Checkpoints *)

(** The loop body saves only on reaching a positive multiple of 500
    exactly. *)
Lemma checkpoint_only_at_exact_multiples (cfg : Config) (o : Observation)
    (st st' : LoopState) (pass : Pass) :
  iteration cfg o st = Continue st' (Some pass) →
  Z.of_nat (length (tweets_collected st')) `mod` 500 = 0
  ∧ 0 < Z.of_nat (length (tweets_collected st')).
Proof.
  unfold iteration.
  case_bool_decide; [done|].
  destruct (track_unique _ _ _ _) as [[seen collected] new_count].
  destruct (_ && _); [done|].
  case_bool_decide; [done|].
  destruct (_ && _) eqn:Hsave; [|done].
  destruct (raised _); [done|].
  intros [= <- _]. simpl.
  rewrite save_collected_after, (Permutation_length (sort_perm collected)).
  apply andb_true_iff in Hsave as [?%Z.eqb_eq ?%Z.ltb_lt]. done.
Qed.

(** C9 fails on the code.  Seven new posts per scroll: the count goes
    from 497 to 504 in the seventy-second pass of the loop and no
    serialization happens, there or earlier. *)
Theorem no_checkpoint_when_the_count_steps_over_500 :
  let before := _collect_all_bookmarks default_config (seven_per_scroll 71) in
  let after := _collect_all_bookmarks default_config (seven_per_scroll 72) in
  length (tweets_collected (state before)) = 497%nat
  ∧ length (tweets_collected (state after)) = 504%nat
  ∧ status after = Scrolling
  ∧ checkpoints after = [].
Proof. vm_compute. done. Qed.

(** Five new posts per scroll: the count reaches 500 exactly and the
    hundredth pass of the loop saves. *)
Example checkpoint_at_exactly_500 :
  let r := _collect_all_bookmarks default_config ((λ i, shows (5 * i + 1) 5) <$> seq 0 100) in
  length (tweets_collected (state r)) = 500%nat
  ∧ length (checkpoints r) = 1%nat.
Proof. vm_compute. done. Qed.

(** ** The end-to-end scenario *)

Example three_posts_two_files :
  let pass := _save_to_markdown two_per_file (runtime_at "2025-03-01 10:00:00") three_posts in
  id <$> collected_after pass = ["1"; "3"; "2"]
  ∧ (files pass).*1 = ["out/bookmarks_001_2024-01-03_to_2024-01-02.md";
                       "out/bookmarks_002_2024-01-01_to_2024-01-01.md"]
  ∧ (chunk_at two_per_file (collected_after pass) <$> [0; 2])
    = [(1, [sample_tweet "1" "2024-01-03T10:00:00Z"; sample_tweet "3" "2024-01-02T08:00:00Z"]);
       (2, [sample_tweet "2" "2024-01-01T09:00:00Z"])]
  ∧ raised pass = false.
Proof. vm_compute. done. Qed.

(* ================================================================= *)
(** * Further properties *)

(** ** Splitting text *)

Lemma find_some_eq (sep : string) :
  ∀ s b a, Str.find sep s = Some (b, a) → s = b +:+ sep +:+ a.
Proof.
  induction s as [|c s IH]; intros b a; rewrite find_unfold.
  - destruct (String.prefix sep "") eqn:E; [|done].
    intros [= <- <-]. by apply prefix_drop.
  - destruct (String.prefix sep (String c s)) eqn:E.
    + intros [= <- <-]. by apply prefix_drop.
    + destruct (Str.find sep s) as [[b' a']|] eqn:Hf; [|done].
      intros [= <- <-]. rewrite str_app_cons. f_equal. by apply IH.
Qed.

Lemma occurs_find (sep s : string) : occurs sep s → Str.find sep s ≠ None.
Proof.
  intros (a & b & ->). induction a as [|c a IH]; rewrite find_unfold.
  - by rewrite str_app_nil_l, prefix_app.
  - destruct (String.prefix sep _); [done|].
    rewrite str_app_cons. by destruct (Str.find sep (a +:+ sep +:+ b)) as [[]|].
Qed.

(** C10 at two sources: a size parameter after [&] is rewritten, a
    size parameter that comes first is kept. *)
Lemma image_size_rewritten_only_after_ampersand_witness :
  re_sub_name "https://pbs.twimg.com/media/Gx2?format=jpg&name=small"
  = "https://pbs.twimg.com/media/Gx2?format=jpg&name=large"
  ∧ re_sub_name "https://pbs.twimg.com/media/Gx1?name=small"
    = "https://pbs.twimg.com/media/Gx1?name=small".
Proof.
  destruct image_size_rewritten_only_after_ampersand as (_ & _ & _ & Hfirst & Hlater).
  split.
  - refine (eq_trans (Hlater "https://pbs.twimg.com/media/Gx2?format=jpg"
                        "s"%char "mall" _ _ _) _).
    + reflexivity.
    + intros H%occurs_find. by vm_compute in H.
    + reflexivity.
    + reflexivity.
  - apply (Hfirst "https://pbs.twimg.com/media/Gx1" "small").
    + reflexivity.
    + reflexivity.
    + intros H%occurs_find. by vm_compute in H.
    + intros H%occurs_find. by vm_compute in H.
Defined.

Lemma occurs_empty (sep : string) : sep ≠ "" → ¬ occurs sep "".
Proof.
  intros Hsep (a & b & H). apply (f_equal String.length) in H.
  rewrite !str_app_length in H. destruct sep; [done|]. simpl in H. lia.
Qed.

Lemma find_some_before (sep : string) :
  sep ≠ "" → ∀ s b a, Str.find sep s = Some (b, a) → ¬ occurs sep b.
Proof.
  intros Hsep. induction s as [|c s IH]; intros b a; rewrite find_unfold.
  - destruct (String.prefix sep ""); [|done].
    intros [= <- <-]. by apply occurs_empty.
  - destruct (String.prefix sep (String c s)) eqn:E.
    { intros [= <- <-]. by apply occurs_empty. }
    destruct (Str.find sep s) as [[b' a']|] eqn:Hf; [|done].
    intros [= <- <-] (x & y & Hxy).
    destruct x as [|d x].
    + rewrite str_app_nil_l in Hxy.
      apply find_some_eq in Hf. rewrite Hf, <- str_app_cons, Hxy in E.
      by rewrite !str_app_assoc, prefix_app in E.
    + rewrite str_app_cons in Hxy. injection Hxy as <- ->.
      apply (IH _ _ eq_refl). by exists x, y.
Qed.

(** No piece of a split holds the separator. *)
Lemma split_pieces (sep : string) :
  sep ≠ "" → ∀ s, Forall (λ piece, ¬ occurs sep piece) (Str.split sep s).
Proof.
  intros Hsep s. unfold Str.split.
  assert (∀ fuel s, (String.length s ≤ fuel)%nat →
            Forall (λ piece, ¬ occurs sep piece) (Str.split_fuel fuel sep s)) as Hgen;
    [|by apply Hgen].
  clear s. induction fuel as [|fuel IH]; intros s Hlen; simpl.
  - destruct s; [|simpl in Hlen; lia].
    constructor; [by apply occurs_empty | constructor].
  - destruct (Str.find sep s) as [[b a]|] eqn:Hf.
    + constructor; [by eapply find_some_before|].
      apply IH. apply find_some_eq in Hf.
      apply (f_equal String.length) in Hf. rewrite !str_app_length in Hf.
      destruct sep; [done|]. simpl in Hf. lia.
    + constructor; [|constructor].
      intros Hocc%occurs_find. done.
Qed.

(** The first piece of a split starts the text. *)
Lemma split_first_prefix (sep s : string) :
  ∃ rest, s = Str.first (Str.split sep s) +:+ rest.
Proof.
  unfold Str.split. destruct (String.length s) as [|fuel]; simpl.
  - exists "". by rewrite str_app_nil_r.
  - destruct (Str.find sep s) as [[b a]|] eqn:Hf; simpl.
    + exists (sep +:+ a). by apply find_some_eq.
    + exists "". by rewrite str_app_nil_r.
Qed.

Lemma occurs_app_l (sep a b : string) : occurs sep a → occurs sep (a +:+ b).
Proof.
  intros (x & y & ->). exists x, (y +:+ b). by rewrite !str_app_assoc.
Qed.

Lemma split_nonempty (sep s : string) : Str.split sep s ≠ [].
Proof.
  unfold Str.split. destruct (String.length s); simpl; [done|].
  by destruct (Str.find sep s) as [[]|].
Qed.

Lemma split_first_elem (sep s : string) : Str.first (Str.split sep s) ∈ Str.split sep s.
Proof.
  pose proof (split_nonempty sep s). unfold Str.first.
  destruct (Str.split sep s); [done|]. simpl. left.
Qed.

Lemma split_final_elem (sep s : string) : Str.final (Str.split sep s) ∈ Str.split sep s.
Proof.
  pose proof (split_nonempty sep s) as Hne. unfold Str.final.
  apply last_is_Some in Hne as [x Hx]. rewrite Hx. simpl.
  by apply last_Some_elem_of.
Qed.

(** ** More on the extractor *)

Lemma shown_id_parse (n : Node) : shown_id n = id <$> _parse_tweet_element n.
Proof.
  unfold shown_id. destruct (_parse_tweet_element n) as [t|] eqn:Hparse.
  - destruct (parse_some n t Hparse) as (u & -> & Hne & Hid & _).
    destruct (parse_raises n) eqn:Hraises.
    + assert (_parse_tweet_element n = None) as Hnone by (apply parse_none; by left).
      congruence.
    + simpl. rewrite bool_decide_false by done. by rewrite Hid.
  - apply parse_none in Hparse as [->|[->| ->]]; [done|by destruct (parse_raises n)..].
Qed.

(** X1.  The ids the extraction of a page yields are the ids of the
    status links of its articles, in document order; an article with
    no status link or with an empty href, and an article in whose
    parsing a driver call raises, contributes nothing and does not
    disturb the others. *)
Theorem extracted_ids_follow_the_articles (tweet_elements : list Node) :
  id <$> _extract_tweets_from_page tweet_elements = omap shown_id tweet_elements.
Proof.
  induction tweet_elements as [|n ns IH]; [done|].
  cbn [_extract_tweets_from_page omap list_omap]. rewrite shown_id_parse.
  destruct (_parse_tweet_element n) as [t|] eqn:Hparse.
  - by rewrite fmap_cons, IH.
  - exact IH.
Qed.

Example article_that_raises_is_skipped :
  id <$> _extract_tweets_from_page
           [link_only "/ann/status/1"; raising_article "/ann/status/2";
            link_only "/ann/status/3"]
  = ["1"; "3"].
Proof. vm_compute. reflexivity. Qed.

(** X2.  The id of an extracted post holds no [?] and no [/status/]. *)
Theorem extracted_id_has_no_query_and_no_separator (n : Node) :
  match _parse_tweet_element n with
  | Some t => ¬ occurs "?" (id t) ∧ ¬ occurs "/status/" (id t)
  | None => True
  end.
Proof.
  destruct (_parse_tweet_element n) as [t|] eqn:Hparse; [|done].
  destruct (parse_some n t Hparse) as (u & _ & _ & -> & _).
  unfold tweet_id_of.
  set (tail := Str.final (Str.split "/status/" u)).
  assert (¬ occurs "/status/" tail) as Htail.
  { pose proof (split_pieces "/status/" ltac:(done) u) as Hp.
    rewrite Forall_forall in Hp. apply Hp, split_final_elem. }
  split.
  - pose proof (split_pieces "?" ltac:(done) tail) as Hp.
    rewrite Forall_forall in Hp. apply Hp, split_first_elem.
  - intros Hocc. apply Htail.
    destruct (split_first_prefix "?" tail) as [rest Hrest].
    rewrite Hrest. by apply occurs_app_l.
Qed.

Lemma parse_author (n : Node) (t : Tweet) :
  _parse_tweet_element n = Some t →
  let author_text :=
    match head (user_names n) with
    | Some author_element => inner_text author_element
    | None => "Unknown"
    end in
  let author_parts := Str.split nl (Str.strip author_text) in
  author_name t = default "Unknown" (head author_parts)
  ∧ author_handle t = default "@unknown" (author_parts !! 1%nat).
Proof.
  destruct n as [links ? ? ? ? ? ? ? ? quotes []]; simpl; [done|].
  destruct (head links ≫= get_attribute "href") as [tweet_url|]; [|done].
  case_bool_decide; [done|]. by intros [= <-].
Qed.

(** X3.  The author name and the author handle of an extracted post
    are single lines; without a User-Name element they are [Unknown]
    and [@unknown], and whenever the author text is ASCII and, once
    stripped, one line, the name is that line and the handle is
    [@unknown]. *)
Theorem author_fields_are_single_lines (n : Node) :
  match _parse_tweet_element n with
  | Some t =>
      ¬ occurs nl (author_name t) ∧ ¬ occurs nl (author_handle t)
      ∧ (user_names n = [] → author_name t = "Unknown" ∧ author_handle t = "@unknown")
      ∧ (∀ author_element, head (user_names n) = Some author_element →
           is_ascii (inner_text author_element) = true →
           ¬ occurs nl (Str.strip (inner_text author_element)) →
           author_name t = Str.strip (inner_text author_element)
           ∧ author_handle t = "@unknown")
  | None => True
  end.
Proof.
  destruct (_parse_tweet_element n) as [t|] eqn:Hparse; [|done].
  destruct (parse_author n t Hparse) as [-> ->].
  set (author_text := match head (user_names n) with
                      | Some e => inner_text e | None => "Unknown" end).
  pose proof (split_pieces nl ltac:(done) (Str.strip author_text)) as Hp.
  rewrite Forall_forall in Hp.
  split; [|split; [|split]].
  - destruct (head (Str.split nl (Str.strip author_text))) as [x|] eqn:Hx; simpl.
    + apply Hp. by eapply head_Some_elem_of.
    + intros H%occurs_find. by vm_compute in H.
  - destruct (_ !! 1%nat) as [x|] eqn:Hx; simpl.
    + apply Hp. by eapply list_elem_of_lookup_2.
    + intros H%occurs_find. by vm_compute in H.
  - unfold author_text. intros ->. by vm_compute.
  - intros e He _ Hone. unfold author_text. rewrite He.
    by rewrite split_none.
Qed.

(** ** No empty reference *)

Lemma values_nonempty (attr : string) (els : list Element) :
  Forall (λ v, v ≠ "") (values attr els).
Proof.
  induction els as [|e els IH]; [constructor|].
  unfold values in *. simpl.
  destruct (get_attribute attr e) as [v|]; simpl; [|done].
  case_bool_decide; [done|]. by constructor.
Qed.

Lemma re_sub_nonempty (s : string) : s ≠ "" → re_sub_name s ≠ "".
Proof.
  destruct s as [|c s]; [done|]. intros _. unfold re_sub_name.
  simpl String.length. rewrite re_sub_unfold.
  destruct (String.prefix _ _); [|done].
  destruct (Str.drop 6 _); [done|].
  destruct (Str.is_word _); done.
Qed.

(** X4.  An extracted post lists no empty image URL and no empty video
    URL. *)
Theorem extracted_media_urls_are_not_empty (n : Node) :
  match _parse_tweet_element n with
  | Some t => Forall (λ u, u ≠ "") (images t) ∧ Forall (λ u, u ≠ "") (videos t)
  | None => True
  end.
Proof.
  destruct (_parse_tweet_element n) as [t|] eqn:Hparse; [|done].
  destruct (parse_some n t Hparse) as (u & _ & _ & _ & _ & -> & -> & _).
  split.
  - rewrite extract_images_values. apply Forall_fmap.
    eapply Forall_impl; [apply values_nonempty|].
    intros src Hsrc. by apply re_sub_nonempty.
  - rewrite extract_videos_chain.
    destruct (iframe_videos_spec n) as (_ & _ & Hmem1).
    destruct (card_videos_spec n) as (_ & _ & Hmem2).
    pose proof (values_nonempty "src" (youtube_iframes n ++ vimeo_iframes n)) as Hsrc.
    pose proof (values_nonempty "href" (card_links n)) as Hhref.
    rewrite Forall_forall in Hsrc, Hhref.
    destruct (iframe_videos n) as [|v vs] eqn:E1.
    + destruct (card_videos n) as [|w ws] eqn:E2.
      * destruct (nonempty _); repeat constructor. done.
      * apply Forall_forall. intros x Hx. by apply Hhref, Hmem2.
    + apply Forall_forall. intros x Hx. by apply Hsrc, Hmem1.
Qed.

(** ** Local image names *)

Lemma occurs_char_cons (c d : ascii) (s : string) :
  occurs (String c "") (String d s) ↔ c = d ∨ occurs (String c "") s.
Proof.
  split.
  - intros (a & b & H). destruct a as [|e a].
    + rewrite str_app_nil_l, str_app_cons in H. injection H as -> _. by left.
    + rewrite str_app_cons in H. injection H as -> ->. right. by exists a, b.
  - intros [->|(a & b & ->)]; [by exists "", s | by exists (String d a), b].
Qed.

Lemma re_sub_unsafe_occurs (c : ascii) (s : string) :
  c ≠ "_"%char → occurs (String c "") (re_sub_unsafe s) →
  (c ∉ (["?"; "&"; "="; ":"]%char : list ascii)) ∧ occurs (String c "") s.
Proof.
  intros Hc. induction s as [|d s IH]; simpl.
  - intros H. by apply occurs_empty in H.
  - rewrite !occurs_char_cons. intros [->|H].
    + case_bool_decide as Hd; [done|]. split; [done | by left].
    + destruct (IH H). split; [done | by right].
Qed.

(** X5.  The base name a downloaded image is stored under holds none
    of [/], [?], [&], [=], [:]. *)
Theorem image_basename_has_no_unsafe_character (img_url : string) (c : ascii) :
  c ∈ ["/"; "?"; "&"; "="; ":"]%char → ¬ occurs (String c "") (basename_of img_url).
Proof.
  intros Hc Hocc. unfold basename_of in Hocc.
  apply re_sub_unsafe_occurs in Hocc as [Hsafe Hocc].
  - apply elem_of_cons in Hc as [->|Hc]; [|done].
    pose proof (split_pieces "/" ltac:(done) img_url) as Hp.
    rewrite Forall_forall in Hp. by apply (Hp _ (split_final_elem "/" img_url)).
  - intros ->.
    repeat (apply elem_of_cons in Hc as [?|Hc]; [done|]).
    by apply elem_of_nil in Hc.
Qed.

Lemma image_basename_has_no_unsafe_character_witness :
  "/"%char ∈ ["/"; "?"; "&"; "="; ":"]%char
  ∧ ¬ occurs "/" (basename_of "https://pbs.twimg.com/media/Gx2?format=jpg&name=large").
Proof.
  split; [left|].
  apply (image_basename_has_no_unsafe_character _ "/"). left.
Defined.

(** ** More on the collection loop *)

Section Loop.
Context (cfg : Config).

Lemma track_unique_count (new_tweets : list Tweet) :
  ∀ (seen : gset string) (collected : list Tweet) (new_count : Z),
  new_count ≤ (track_unique new_tweets seen collected new_count).2
  ∧ ((track_unique new_tweets seen collected new_count).2 = new_count
     ↔ Forall (λ t, id t ∈ seen) new_tweets).
Proof.
  induction new_tweets as [|t rest IH]; intros seen collected new_count; simpl.
  - split; [lia|]. split; [constructor | done].
  - case_bool_decide as Hnew.
    + destruct (IH ({[id t]} ∪ seen) (collected ++ [t]) (new_count + 1)) as [Hle _].
      split; [lia|]. split; [lia|].
      intros [Hin _]%Forall_cons. done.
    + destruct (IH seen collected new_count) as [Hle Hiff].
      split; [done|]. rewrite Hiff, Forall_cons. tauto.
Qed.

Lemma track_unique_quiet (new_tweets : list Tweet) (seen : gset string)
    (collected : list Tweet) (new_count : Z) :
  Forall (λ t, id t ∈ seen) new_tweets →
  track_unique new_tweets seen collected new_count = (seen, collected, new_count).
Proof.
  induction 1 as [|t rest Ht Hrest IH]; simpl; [done|].
  by rewrite bool_decide_false by (by intros ?).
Qed.

Lemma track_unique_seen (new_tweets : list Tweet) :
  ∀ (seen : gset string) (collected : list Tweet) (new_count : Z),
  seen ⊆ (track_unique new_tweets seen collected new_count).1.1
  ∧ Forall (λ t, id t ∈ (track_unique new_tweets seen collected new_count).1.1) new_tweets.
Proof.
  induction new_tweets as [|t rest IH]; intros seen collected new_count; simpl.
  - split; [done | constructor].
  - case_bool_decide as Hnew.
    + destruct (IH ({[id t]} ∪ seen) (collected ++ [t]) (new_count + 1)) as [Hsub Hall].
      split; [set_solver|]. constructor; [set_solver | done].
    + destruct (IH seen collected new_count) as [Hsub Hall].
      split; [done|]. constructor; [|done]. by apply Hsub.
Qed.

(** What one pass through the loop body does to the seen-set and to
    the collected list. *)
Lemma iteration_grows (o : Observation) (st : LoopState) :
  let st' := step_state (iteration cfg o st) in
  tweets_seen st ⊆ tweets_seen st'
  ∧ Forall (λ t, id t ∈ tweets_seen st') (_extract_tweets_from_page (articles o))
  ∧ tweets_collected st ⊆ tweets_collected st'.
Proof.
  unfold iteration.
  case_bool_decide as Hfault.
  { simpl. split; [done|]. split; [|done]. unfold articles. rewrite Hfault. constructor. }
  pose proof (track_unique_seen (_extract_tweets_from_page (articles o))
                (tweets_seen st) (tweets_collected st) 0) as [Hsub Hall].
  destruct (track_unique_fresh (_extract_tweets_from_page (articles o))
              (tweets_seen st) (tweets_collected st) 0) as (fresh & Heq & _).
  rewrite Heq in Hsub, Hall |- *. simpl in Hsub, Hall.
  assert (tweets_collected st ⊆ tweets_collected st ++ fresh) as Hkeep.
  { intros t Ht. apply elem_of_app. by left. }
  destruct (_ && _); [done|].
  case_bool_decide; [done|].
  destruct (_ && _); [|done].
  assert (tweets_collected st ⊆
          collected_after (_save_to_markdown cfg (runtime o) (tweets_collected st ++ fresh)))
    as Hsorted.
  { rewrite save_collected_after. intros t Ht. rewrite sort_perm. by apply Hkeep. }
  by destruct (raised _).
Qed.

Lemma collect_from_grows (page : list Observation) :
  ∀ st, tweets_seen st ⊆ tweets_seen (state (collect_from cfg page st))
        ∧ tweets_collected st ⊆ tweets_collected (state (collect_from cfg page st)).
Proof.
  induction page as [|o later IH]; intros st; simpl; [done|].
  destruct (iteration_grows o st) as (Hseen & _ & Hcoll).
  destruct (iteration cfg o st) as [st' ?|st'|st' ?|st']; simpl in *; [|done..].
  destruct (IH st') as [Hseen' Hcoll']. split; by etrans.
Qed.

(** A run stops at one observation and looks at none after it. *)
Lemma collect_from_split (page : list Observation) :
  ∀ st, ∃ done rest,
    page = done ++ rest
    ∧ collect_from cfg done st = collect_from cfg page st
    ∧ (status (collect_from cfg page st) = Scrolling → rest = [])
    ∧ (status (collect_from cfg page st) ≠ Scrolling →
       ∃ before o, done = before ++ [o]
         ∧ status (collect_from cfg before st) = Scrolling
         ∧ step_state (iteration cfg o (state (collect_from cfg before st)))
           = state (collect_from cfg page st)
         ∧ (status (collect_from cfg page st) = Finished →
            iteration cfg o (state (collect_from cfg before st))
            = Break (state (collect_from cfg page st))))
    ∧ Forall (λ o, Forall (λ t, id t ∈ tweets_seen (state (collect_from cfg page st)))
                     (_extract_tweets_from_page (articles o))) done.
Proof.
  induction page as [|o later IH]; intros st.
  - exists [], []. simpl. by repeat split.
  - simpl. destruct (iteration_grows o st) as (_ & Hall & _).
    destruct (iteration cfg o st) as [st' cp|st'|st' pass|st'] eqn:Hit.
    + destruct (IH st') as (done & rest & -> & Hsame & Hrest & Hstop & Hcover).
      exists (o :: done), rest. simpl. rewrite Hit, Hsame.
      split; [done|]. split; [done|]. split; [done|]. split.
      * intros Hne. destruct (Hstop Hne) as (before & o' & -> & Hb & Hstep & Hfin).
        exists (o :: before), o'. simpl. rewrite Hit. simpl. done.
      * constructor; [|done].
        destruct (collect_from_grows (done ++ rest) st') as [Hmono _].
        eapply Forall_impl; [exact Hall|]. intros t Ht. simpl in Ht. by apply Hmono.
    + exists [o], later. simpl. rewrite Hit. simpl.
      split; [done|]. split; [done|]. split; [done|]. split.
      * intros _. exists [], o. simpl. by rewrite Hit.
      * by constructor.
    + exists [o], later. simpl. rewrite Hit. simpl.
      split; [done|]. split; [done|]. split; [done|]. split.
      * intros _. exists [], o. simpl. by rewrite Hit.
      * by constructor.
    + exists [o], later. simpl. rewrite Hit. simpl.
      split; [done|]. split; [done|]. split; [done|]. split.
      * intros _. exists [], o. simpl. by rewrite Hit.
      * by constructor.
Qed.

Lemma collect_from_app (p q : list Observation) :
  ∀ st,
  collect_from cfg (p ++ q) st =
  match status (collect_from cfg p st) with
  | Scrolling =>
      {| state := state (collect_from cfg q (state (collect_from cfg p st)));
         checkpoints := checkpoints (collect_from cfg p st)
                        ++ checkpoints (collect_from cfg q (state (collect_from cfg p st)));
         status := status (collect_from cfg q (state (collect_from cfg p st))) |}
  | _ => collect_from cfg p st
  end.
Proof.
  induction p as [|o p IH]; intros st; simpl.
  - by destruct (collect_from cfg q st).
  - destruct (iteration cfg o st) as [st' cp|st'|st' pass|st']; simpl; [|done..].
    rewrite IH. destruct (status (collect_from cfg p st')) eqn:E; simpl;
      rewrite ?E; [|done..].
    by rewrite <- app_assoc.
Qed.

End Loop.

(** X6.  A run reads the observations up to the one it stops at and no
    further; for every article shown up to there that the extractor
    accepts, the collected list holds a post with its id. *)
Theorem every_shown_post_is_collected (cfg : Config) (page : list Observation) :
  let r := _collect_all_bookmarks cfg page in
  ∃ done rest,
    page = done ++ rest
    ∧ _collect_all_bookmarks cfg done = r
    ∧ (status r = Scrolling → rest = [])
    ∧ (∀ o n t, o ∈ done → n ∈ articles o → _parse_tweet_element n = Some t →
         id t ∈ ids (tweets_collected (state r))).
Proof.
  simpl. unfold _collect_all_bookmarks.
  destruct (collect_from_split cfg page initial)
    as (done & rest & Hpage & Hsame & Hrest & _ & Hcover).
  exists done, rest. split; [done|]. split; [done|]. split; [done|].
  intros o n t Ho Hn Hparse.
  destruct (collect_from_inv cfg page initial initial_inv) as [_ Hseen].
  rewrite Forall_forall in Hcover. specialize (Hcover o Ho).
  rewrite Forall_forall in Hcover.
  assert (t ∈ _extract_tweets_from_page (articles o)) as Ht.
  { clear -Hn Hparse. induction (articles o) as [|m ms IH]; [by apply elem_of_nil in Hn|].
    simpl. apply elem_of_cons in Hn as [<-|Hn].
    - rewrite Hparse. left.
    - destruct (_parse_tweet_element m); [right|]; by apply IH. }
  specialize (Hcover t Ht). rewrite Hseen in Hcover.
  by apply elem_of_list_to_set in Hcover.
Qed.

(** A driver call that raises ends the run: when it is the locator
    query, nothing of that pass is collected; when it is the scroll,
    the posts of that pass are.  The observations behind are not
    read. *)
Example driver_fault_ends_the_run :
  let at_extract :=
    _collect_all_bookmarks default_config
      [shows 1 3; shows_until ExtractRaises 4 2; shows 6 2] in
  let at_scroll :=
    _collect_all_bookmarks default_config
      [shows 1 3; shows_until ScrollRaises 4 2; shows 6 2] in
  status at_extract = Failed
  ∧ ids (tweets_collected (state at_extract)) = ["1"; "2"; "3"]
  ∧ status at_scroll = Failed
  ∧ ids (tweets_collected (state at_scroll)) = ["1"; "2"; "3"; "4"; "5"].
Proof. vm_compute. done. Qed.

(** X7.  A post once collected stays collected, however the run goes
    on. *)
Theorem collected_posts_are_kept (cfg : Config) (p q : list Observation) :
  tweets_collected (state (_collect_all_bookmarks cfg p))
  ⊆ tweets_collected (state (_collect_all_bookmarks cfg (p ++ q))).
Proof.
  unfold _collect_all_bookmarks. rewrite collect_from_app.
  destruct (status (collect_from cfg p initial)); [|done..]. simpl.
  apply collect_from_grows.
Qed.

(** X8.  The loop leaves only through a pass of its body that found no
    new post, with the counter at the retry threshold or above; the
    list and the seen-set are then as the passes before left them. *)
Theorem loop_finishes_only_on_a_pass_without_new_posts
    (cfg : Config) (page : list Observation) :
  let r := _collect_all_bookmarks cfg page in
  status r = Finished →
  ∃ before o rest,
    page = before ++ o :: rest
    ∧ status (_collect_all_bookmarks cfg before) = Scrolling
    ∧ quiet (tweets_seen (state (_collect_all_bookmarks cfg before))) o
    ∧ tweets_collected (state r) = tweets_collected (state (_collect_all_bookmarks cfg before))
    ∧ tweets_seen (state r) = tweets_seen (state (_collect_all_bookmarks cfg before))
    ∧ scroll_retries cfg ≤ no_new_tweets_count (state r).
Proof.
  simpl. unfold _collect_all_bookmarks. intros Hfin.
  destruct (collect_from_split cfg page initial)
    as (done & rest & Hpage & _ & _ & Hstop & _).
  destruct Hstop as (before & o & -> & Hscroll & _ & Hbreak); [by rewrite Hfin|].
  specialize (Hbreak Hfin).
  exists before, o, rest. split; [by rewrite Hpage, <- app_assoc|]. split; [done|].
  set (st := state (collect_from cfg before initial)) in *.
  set (st' := state (collect_from cfg page initial)) in *.
  unfold iteration in Hbreak.
  pose proof (track_unique_count (_extract_tweets_from_page (articles o))
                (tweets_seen st) (tweets_collected st) 0) as [_ Hquiet].
  destruct (track_unique _ _ _ _) as [[seen collected] new_count] eqn:Htrack.
  simpl in Hquiet. revert Hbreak.
  case_bool_decide; [done|].
  destruct ((new_count =? 0) && _) eqn:Hcond.
  - apply andb_true_iff in Hcond as [Hzero%Z.eqb_eq Hretry%Z.leb_le].
    apply Hquiet in Hzero as Hq.
    rewrite (track_unique_quiet _ _ _ _ Hq) in Htrack. injection Htrack as <- <- _.
    intros [= <-]. simpl. subst new_count. simpl in *.
    by repeat split.
  - case_bool_decide; [done|].
    destruct ((Z.of_nat (length collected) `mod` 500 =? 0) && _);
      [destruct (raised _)|]; done.
Qed.

Lemma loop_finishes_only_on_a_pass_without_new_posts_witness :
  status (_collect_all_bookmarks default_config (frozen_page 3)) = Finished
  ∧ ∃ before o rest,
      frozen_page 3 = before ++ o :: rest
      ∧ status (_collect_all_bookmarks default_config before) = Scrolling
      ∧ quiet (tweets_seen (state (_collect_all_bookmarks default_config before))) o.
Proof.
  split; [vm_compute; reflexivity|].
  destruct (loop_finishes_only_on_a_pass_without_new_posts default_config (frozen_page 3))
    as (before & o & rest & Hpage & Hscroll & Hquiet & _); [vm_compute; reflexivity|].
  by exists before, o, rest.
Defined.

(** ** When the loop stops *)

Section Stop.
Context (cfg : Config).

(** A pass of the loop body over an observation that shows nothing
    new: it leaves the loop when the counter reaches the threshold,
    else, unless a driver call raises, it goes on with the counter one
    higher, two higher when the page has not grown. *)
Lemma iteration_quiet (o : Observation) (st : LoopState) :
  quiet (tweets_seen st) o →
  match iteration cfg o st with
  | Break st' => scroll_retries cfg ≤ no_new_tweets_count st + 1
  | Continue st' _ | Crashed st' _ =>
      no_new_tweets_count st + 1 < scroll_retries cfg
      ∧ tweets_seen st' = tweets_seen st
      ∧ last_height st' = scroll_height o
      ∧ no_new_tweets_count st'
        = no_new_tweets_count st + 1
          + (if scroll_height o =? last_height st then 1 else 0)
  | Faulted _ => True
  end.
Proof.
  intros Hq. unfold iteration.
  case_bool_decide; [done|].
  rewrite (track_unique_quiet _ _ _ _ Hq). simpl.
  destruct (scroll_retries cfg <=? no_new_tweets_count st + 1) eqn:Hr.
  - by apply Z.leb_le in Hr.
  - apply Z.leb_gt in Hr.
    case_bool_decide; [done|].
    destruct (_ && _); [destruct (raised _)|]; simpl;
      (split; [done|]); (split; [done|]); (split; [done|]);
      destruct (scroll_height o =? last_height st); lia.
Qed.

Lemma count_not_negative (page : list Observation) :
  ∀ st, 0 ≤ no_new_tweets_count st →
        0 ≤ no_new_tweets_count (state (collect_from cfg page st)).
Proof.
  induction page as [|o later IH]; intros st Hst; simpl; [done|].
  assert (0 ≤ no_new_tweets_count (step_state (iteration cfg o st))) as Hstep.
  { unfold iteration.
    case_bool_decide; [done|].
    destruct (track_unique _ _ _ _) as [[seen collected] new_count].
    destruct (new_count =? 0); simpl.
    - destruct (_ <=? _); simpl; [lia|].
      case_bool_decide; simpl; [lia|].
      destruct (_ && _); [destruct (raised _)|]; simpl;
        destruct (_ =? _); lia.
    - case_bool_decide; simpl; [lia|].
      destruct (_ && _); [destruct (raised _)|]; simpl;
        destruct (_ =? _); lia. }
  destruct (iteration cfg o st); simpl in *; auto.
Qed.

(** While the loop goes on over observations that show nothing new,
    the counter stays below the threshold: by [per_pass] for each
    pass, where [per_pass] is 2 if the page never grows and 1
    otherwise. *)
Lemma quiet_run (per_pass : Z) (obs : list Observation) :
  ∀ st,
  Forall (quiet (tweets_seen st)) obs →
  (per_pass = 1 ∨ per_pass = 2 ∧ Forall (λ o, scroll_height o = last_height st) obs) →
  status (collect_from cfg obs st) = Scrolling →
  obs = [] ∨ no_new_tweets_count st + per_pass * (Z.of_nat (length obs) - 1) + 1
             < scroll_retries cfg.
Proof.
  induction obs as [|o obs IH]; intros st Hquiet Hper Hscroll; [by left|].
  apply Forall_cons in Hquiet as [Hq Hquiet]. right.
  pose proof (iteration_quiet o st Hq) as Hit. revert Hit Hscroll. simpl.
  destruct (iteration cfg o st) as [st' cp|st'|st' pass|st']; simpl; [|done..].
  intros (Hlt & Hseen & Hheight & Hcount) Hscroll.
  destruct (IH st') as [->|Hrest]; [by rewrite Hseen| |done|simpl; lia|].
  - destruct Hper as [->|[-> Hfrozen]]; [by left|]. right. split; [done|].
    apply Forall_cons in Hfrozen as [Ho Hfrozen].
    eapply Forall_impl; [exact Hfrozen|]. intros o' Ho'. simpl in Ho'. congruence.
  - rewrite Hcount in Hrest.
    destruct Hper as [->|[-> Hfrozen]].
    + destruct (_ =? _); lia.
    + apply Forall_cons in Hfrozen as [Ho _].
      rewrite Ho, Z.eqb_refl in Hrest. simpl length. lia.
Qed.

End Stop.

(** X9.  After as many passes without a new post as the retry
    threshold says (and at least one), the loop has stopped. *)
Theorem loop_stops_within_the_retry_threshold
    (cfg : Config) (page obs : list Observation) :
  Forall (quiet (tweets_seen (state (_collect_all_bookmarks cfg page)))) obs →
  (0 < length obs)%nat →
  scroll_retries cfg ≤ Z.of_nat (length obs) →
  status (_collect_all_bookmarks cfg (page ++ obs)) ≠ Scrolling.
Proof.
  intros Hquiet Hlen Hretry. unfold _collect_all_bookmarks in *.
  rewrite collect_from_app.
  destruct (status (collect_from cfg page initial)) eqn:Hpage; [|by rewrite Hpage..].
  simpl. intros Hscroll.
  pose proof (count_not_negative cfg page initial) as Hpos. simpl in Hpos.
  destruct (quiet_run cfg 1 obs _ Hquiet) as [->|Hbound]; [by left|done|simpl in Hlen; lia|].
  specialize (Hpos ltac:(lia)). lia.
Qed.

Lemma loop_stops_within_the_retry_threshold_witness :
  status (_collect_all_bookmarks default_config
            ([shows 1 3] ++ [shows 1 3; shows 2 2; shows 3 1])) ≠ Scrolling.
Proof.
  apply (loop_stops_within_the_retry_threshold default_config).
  - by apply (bool_decide_unpack _).
  - simpl. lia.
  - simpl. lia.
Defined.

(** X10.  A page that has stopped growing counts twice at every pass:
    the loop stops after about half as many passes without a new post
    as the retry threshold says. *)
Theorem loop_stops_sooner_on_a_page_that_does_not_grow
    (cfg : Config) (page obs : list Observation) :
  Forall (quiet (tweets_seen (state (_collect_all_bookmarks cfg page)))) obs →
  Forall (λ o, scroll_height o = last_height (state (_collect_all_bookmarks cfg page))) obs →
  (0 < length obs)%nat →
  scroll_retries cfg + 1 ≤ 2 * Z.of_nat (length obs) →
  status (_collect_all_bookmarks cfg (page ++ obs)) ≠ Scrolling.
Proof.
  intros Hquiet Hfrozen Hlen Hretry. unfold _collect_all_bookmarks in *.
  rewrite collect_from_app.
  destruct (status (collect_from cfg page initial)) eqn:Hpage; [|by rewrite Hpage..].
  simpl. intros Hscroll.
  pose proof (count_not_negative cfg page initial) as Hpos. simpl in Hpos.
  destruct (quiet_run cfg 2 obs _ Hquiet) as [->|Hbound];
    [by right|done|simpl in Hlen; lia|].
  specialize (Hpos ltac:(lia)). lia.
Qed.

Lemma loop_stops_sooner_on_a_page_that_does_not_grow_witness :
  status (_collect_all_bookmarks default_config ([shows 1 3] ++ [shows 1 3; shows 1 3]))
  ≠ Scrolling.
Proof.
  apply (loop_stops_sooner_on_a_page_that_does_not_grow default_config).
  - by apply (bool_decide_unpack _).
  - by apply (bool_decide_unpack _).
  - simpl. lia.
  - simpl. lia.
Defined.

(** ** Writing a post *)

Lemma occurs_app_r (sep a b : string) : occurs sep b → occurs sep (a +:+ b).
Proof.
  intros (x & y & ->). exists (a +:+ x), y. by rewrite !str_app_assoc.
Qed.

Lemma occurs_refl (s : string) : occurs s s.
Proof. exists "", "". by rewrite str_app_nil_l, str_app_nil_r. Qed.

Lemma emits_ret : emits (mret tt) true 0 (λ _ _, False).
Proof.
  intros [b f]. exists "". simpl. split; [|done].
  unfold mret, M_ret. by rewrite str_app_nil_r, Nat.add_0_r.
Qed.

Lemma emits_write (s : string) : emits (write s) true 0 (λ _ l, l = s).
Proof.
  intros [b f]. exists s. simpl. split.
  - unfold write. simpl. by rewrite Nat.add_0_r.
  - intros l ->. apply occurs_refl.
Qed.

Lemma emits_bind (m1 m2 : M unit) (ok1 ok2 : bool) (d1 d2 : nat)
    (lines1 lines2 : nat → string → Prop) :
  emits m1 ok1 d1 lines1 → emits m2 ok2 d2 lines2 →
  emits (m1 ;;; m2) (ok1 && ok2) (d1 + if ok1 then d2 else 0)
        (λ f l, lines1 f l ∨ (ok1 = true ∧ lines2 (f + d1)%nat l)).
Proof.
  intros H1 H2 k. destruct (H1 k) as (out1 & Hm1 & Hl1).
  unfold mbind, M_bind. rewrite Hm1. destruct ok1; simpl.
  - destruct (H2 {| buf := buf k +:+ out1; fetched := (fetched k + d1)%nat |})
      as (out2 & Hm2 & Hl2). simpl in *.
    exists (out1 +:+ out2). rewrite Hm2, str_app_assoc, Nat.add_assoc. split; [done|].
    intros l [Hl|[_ Hl]]; [by apply occurs_app_l, Hl1 | by apply occurs_app_r, Hl2].
  - exists out1. rewrite Nat.add_0_r. split; [done|].
    intros l [Hl|[? _]]; [by apply Hl1 | done].
Qed.

Lemma emits_weaken (m : M unit) (ok ok' : bool) (d d' : nat)
    (lines lines' : nat → string → Prop) :
  emits m ok d lines → ok = ok' → d = d' → (∀ f l, lines' f l → lines f l) →
  emits m ok' d' lines'.
Proof.
  intros H <- <- Hl k. destruct (H k) as (out & Hm & Hout).
  exists out. split; [done|]. intros l Hl'. by apply Hout, Hl.
Qed.

Lemma emits_when (b : bool) (m : M unit) (ok : bool) (d : nat)
    (lines : nat → string → Prop) :
  emits m ok d lines →
  emits (when b m) (if b then ok else true) (if b then d else 0)
        (λ f l, b = true ∧ lines f l).
Proof.
  intros H. destruct b; simpl.
  - eapply emits_weaken; [exact H|done..|]. by intros f l [_ ?].
  - eapply emits_weaken; [apply emits_ret|done..|]. by intros f l [? _].
Qed.

(** A loop whose body only writes. *)
Lemma emits_for_each_writes {A} (l : list A) (line : A → string) :
  emits (for_each l (λ x, write (line x))) true 0 (λ _ _, False).
Proof.
  induction l as [|x l IH]; simpl; [apply emits_ret|].
  eapply emits_weaken; [eapply emits_bind; [apply emits_write | exact IH]|done..|].
  by intros f s [].
Qed.

(** The timestamp line: it raises exactly when the timestamp does not
    format. *)
Lemma emits_stamp (rt : Runtime) (ts : string) (dated : string → string) (undated : string) :
  emits (if truthy ts
         then formatted ← format_time rt ts; write (dated formatted)
         else write undated)
        (formats rt ts) 0 (λ _ _, False).
Proof.
  unfold formats. destruct (truthy ts).
  - unfold format_time.
    destruct (strftime_iso rt _) as [formatted|]; simpl.
    + change (mret formatted ≫= λ formatted0, write (dated formatted0))
        with (write (dated formatted)).
      eapply emits_weaken; [apply (emits_write (dated formatted))|done..|].
      by intros f s [].
    + intros [b f]. exists "". split; [|done].
      unfold mbind, M_bind, raise, finish. simpl.
      by rewrite str_app_nil_r, Nat.add_0_r.
  - eapply emits_weaken; [apply (emits_write undated)|done..|]. by intros f s [].
Qed.

(** The image loop: one line per image, chosen by the answer of the
    download of that image alone. *)
Lemma emits_image (cfg : Config) (rt : Runtime)
    (stored failed remote : string → string) (img_url : string) :
  emits (if download_images_locally cfg then
           download_successful ← _download_image rt img_url;
           if (download_successful : bool)
           then write (stored img_url) else write (failed img_url)
         else write (remote img_url))
        true (if download_images_locally cfg then 1 else 0)
        (λ f l, l = if download_images_locally cfg
                    then if download_ok rt f img_url
                         then stored img_url else failed img_url
                    else remote img_url).
Proof.
  destruct (download_images_locally cfg); [|apply emits_write].
  intros [b f].
  exists (if download_ok rt f img_url then stored img_url else failed img_url).
  unfold mbind, M_bind, _download_image. simpl. rewrite Nat.add_1_r. split.
  - by destruct (download_ok rt f img_url).
  - intros l ->. apply occurs_refl.
Qed.

Lemma emits_image_loop (cfg : Config) (rt : Runtime)
    (stored failed remote : string → string) (imgs : list string) :
  emits (for_each imgs (λ img_url,
           if download_images_locally cfg then
             download_successful ← _download_image rt img_url;
             if (download_successful : bool)
             then write (stored img_url) else write (failed img_url)
           else write (remote img_url)))
        true (if download_images_locally cfg then length imgs else 0)
        (λ f l, ∃ (i : nat) u, imgs !! i = Some u
                ∧ l = if download_images_locally cfg
                      then if download_ok rt (f + i) u then stored u else failed u
                      else remote u).
Proof.
  induction imgs as [|u imgs IH]; simpl.
  - eapply emits_weaken; [apply emits_ret|done|by destruct (download_images_locally cfg)|].
    by intros f l (i & v & ? & _).
  - eapply emits_weaken;
      [eapply emits_bind; [apply (emits_image cfg rt stored failed remote u) | exact IH]
      |done|by destruct (download_images_locally cfg)|].
    intros f l ([|i] & v & Hi & ->); simpl in Hi.
    + injection Hi as <-. left. by rewrite Nat.add_0_r.
    + right. split; [done|]. exists i, v. split; [done|].
      destruct (download_images_locally cfg); [|done].
      by replace (f + 1 + i)%nat with (f + S i)%nat by lia.
Qed.

Lemma emits_quoted (cfg : Config) (rt : Runtime) (qt : Tweet) :
  emits (write_quoted_tweet cfg rt qt)
        (formats rt (timestamp qt))
        (if formats rt (timestamp qt)
         then if include_images cfg && download_images_locally cfg
              then length (images qt) else 0
         else 0)
        (λ _ _, False).
Proof.
  unfold write_quoted_tweet. cbv zeta.
  eapply emits_weaken.
  - eapply emits_bind; [apply emits_write|].
    eapply emits_bind; [apply emits_write|].
    eapply emits_bind; [apply emits_for_each_writes|].
    eapply emits_bind; [apply emits_write|].
    eapply emits_bind; [apply emits_stamp|].
    eapply emits_bind.
    + apply emits_when. eapply emits_bind; [apply emits_write | apply emits_image_loop].
    + apply emits_when. eapply emits_bind; [apply emits_write|].
      eapply emits_bind; [apply emits_for_each_writes | apply emits_write].
  - by destruct (formats rt _), (include_images cfg), (images qt), (nonempty (videos qt)).
  - destruct (formats rt _), (include_images cfg), (download_images_locally cfg),
      (images qt), (nonempty (videos qt)); simpl; lia.
  - by intros f l [].
Qed.

Lemma emits_quoted_block (cfg : Config) (rt : Runtime) (quoted : option Tweet) :
  emits (match quoted with
         | Some qt => write_quoted_tweet cfg rt qt
         | None => mret tt
         end)
        (match quoted with Some qt => formats rt (timestamp qt) | None => true end)
        (match quoted with
         | Some qt =>
             if formats rt (timestamp qt)
             then if include_images cfg && download_images_locally cfg
                  then length (images qt) else 0
             else 0
         | None => 0
         end)
        (λ _ _, False).
Proof. destruct quoted as [qt|]; [apply emits_quoted | apply emits_ret]. Qed.

(** What writing one post does. *)
Lemma emits_tweet (cfg : Config) (rt : Runtime) (t : Tweet) :
  emits (_write_tweet_to_markdown cfg rt t)
        (formattable rt t) (downloads_of cfg rt t)
        (λ f l, formats rt (timestamp t) = true ∧ include_images cfg = true
                ∧ ∃ (i : nat) u, images t !! i = Some u
                  ∧ l = image_line cfg (download_ok rt (f + i) u) (id t) u).
Proof.
  unfold _write_tweet_to_markdown. cbv zeta.
  eapply emits_weaken.
  - eapply emits_bind; [apply emits_write|].
    eapply emits_bind; [apply emits_stamp|].
    eapply emits_bind; [apply emits_write|].
    eapply emits_bind.
    { apply emits_when. eapply emits_bind; [apply emits_write | apply emits_image_loop]. }
    eapply emits_bind.
    { apply emits_when. eapply emits_bind; [apply emits_write|].
      eapply emits_bind; [apply emits_for_each_writes | apply emits_write]. }
    eapply emits_bind; [apply emits_quoted_block | apply emits_write].
  - unfold formattable.
    by destruct (formats rt (timestamp t)), (include_images cfg), (images t),
      (nonempty (videos t)), (quoted_tweet t) as [qt|];
      try destruct (formats rt (timestamp qt)).
  - unfold downloads_of.
    destruct (formats rt (timestamp t)), (include_images cfg),
      (download_images_locally cfg), (images t), (nonempty (videos t)),
      (quoted_tweet t) as [qt|]; try destruct (formats rt (timestamp qt));
      simpl; lia.
  - intros f l (Hfmt & Hinc & i & u & Hi & ->).
    right. split; [done|]. right. split; [done|]. right. split; [done|]. left.
    split.
    + rewrite Hinc. simpl. by destruct (images t).
    + right. split; [done|]. exists i, u. split; [done|].
      unfold image_line. by rewrite !Nat.add_0_r.
Qed.

(** X11.  Writing a post only appends to the file; it raises exactly
    when the timestamp of the post or of its quoted post does not
    format; and it asks for a download once per image written, the
    images of the post first, and for none unless both
    [include_images] and [download_images_locally] are set. *)
Theorem writing_a_post_appends_and_downloads_per_image
    (cfg : Config) (rt : Runtime) (t : Tweet) (k : Sink) :
  let r := _write_tweet_to_markdown cfg rt t k in
  is_ok r = formattable rt t
  ∧ (∃ out, buf (sink_of r) = buf k +:+ out)
  ∧ fetched (sink_of r) = (fetched k + downloads_of cfg rt t)%nat
  ∧ (include_images cfg && download_images_locally cfg = false →
     fetched (sink_of r) = fetched k).
Proof.
  simpl. destruct (emits_tweet cfg rt t k) as (out & -> & _).
  assert (∀ ok k', is_ok (finish ok k') = ok ∧ sink_of (finish ok k') = k') as Hfin
    by (by intros []).
  destruct (Hfin (formattable rt t)
              {| buf := buf k +:+ out; fetched := (fetched k + downloads_of cfg rt t)%nat |})
    as [-> ->]. simpl.
  split; [done|]. split; [by exists out|]. split; [done|].
  intros Hoff. unfold downloads_of. rewrite Hoff. lia.
Qed.

(** X12.  When images are included and the post's timestamp formats,
    the text written for a post holds one line for each of its images:
    the stored copy if the download of that image succeeded, the
    remote URL, marked as failed, if it did not, the plain remote URL
    if downloads are off.  The download of one image decides the line
    of no other. *)
Theorem every_image_gets_its_line
    (cfg : Config) (rt : Runtime) (t : Tweet) (k : Sink) :
  include_images cfg = true → formats rt (timestamp t) = true →
  ∃ out,
    buf (sink_of (_write_tweet_to_markdown cfg rt t k)) = buf k +:+ out
    ∧ ∀ (i : nat) u, images t !! i = Some u →
        occurs (image_line cfg (download_ok rt (fetched k + i) u) (id t) u) out.
Proof.
  intros Hinc Hfmt. destruct (emits_tweet cfg rt t k) as (out & -> & Hlines).
  exists out. split; [by destruct (formattable rt t)|].
  intros i u Hi. apply Hlines. split; [done|]. split; [done|]. by exists i, u.
Qed.

Lemma every_image_gets_its_line_witness :
  ∃ out,
    buf (sink_of (_write_tweet_to_markdown downloading first_download_fails two_images
                    {| buf := ""; fetched := 0 |})) = "" +:+ out
    ∧ occurs ("![Image (Failed to download)](https://pbs.twimg.com/media/A?format=jpg&name=large)"
              +:+ nl +:+ nl) out
    ∧ occurs ("![Image](./images/9_B_format_jpg_name_large)" +:+ nl +:+ nl) out.
Proof.
  destruct (every_image_gets_its_line downloading first_download_fails two_images
              {| buf := ""; fetched := 0 |} eq_refl eq_refl) as (out & Hout & Hlines).
  exists out. split; [exact Hout|]. split.
  - exact (Hlines 0%nat _ eq_refl).
  - exact (Hlines 1%nat _ eq_refl).
Defined.

(** ** Writing the files of a pass *)

Lemma is_ok_after (m f : M unit) (ok : bool) (d : nat) (lines : nat → string → Prop)
    (b : bool) :
  emits m ok d lines → ok = true → (∀ k', is_ok (f k') = b) →
  ∀ k, is_ok ((m ;;; f) k) = b.
Proof.
  intros Hm -> Hf k. destruct (Hm k) as (out & Heq & _).
  unfold mbind, M_bind. rewrite Heq. simpl. apply Hf.
Qed.

Lemma for_each_ok {A} (body : A → M unit) (ok : A → bool) :
  (∀ x k, is_ok (body x k) = ok x) →
  ∀ l k, is_ok (for_each l body k) = forallb ok l.
Proof.
  intros Hbody. induction l as [|x l IH]; intros k; simpl; [done|].
  unfold mbind, M_bind. specialize (Hbody x k).
  destruct (body x k) as [[] k'|k']; simpl in *; rewrite <- Hbody; [apply IH | done].
Qed.

Lemma write_tweet_ok (cfg : Config) (rt : Runtime) (t : Tweet) (k : Sink) :
  is_ok (_write_tweet_to_markdown cfg rt t k) = formattable rt t.
Proof.
  destruct (emits_tweet cfg rt t k) as (out & -> & _). by destruct (formattable rt t).
Qed.

Lemma write_file_ok (cfg : Config) (rt : Runtime) (tot : Totals) (collected : list Tweet)
    (k_file : nat) (file_number : Z) (chunk : list Tweet) (k : Sink) :
  is_ok (write_file cfg rt tot collected k_file file_number chunk k)
  = forallb (formattable rt) chunk.
Proof.
  unfold write_file. revert k.
  eapply is_ok_after; [apply emits_write|done|].
  eapply is_ok_after; [apply emits_write|done|].
  eapply is_ok_after;
    [apply emits_when; eapply emits_bind; [apply emits_write | apply emits_write]
    |by destruct (_ && _)|].
  eapply is_ok_after; [apply emits_write|done|].
  eapply is_ok_after; [apply emits_write|done|].
  apply for_each_ok. intros t k. apply write_tweet_ok.
Qed.

Lemma write_chunks_raised (cfg : Config) (rt : Runtime) (tot : Totals)
    (collected : list Tweet) (starts : list Z) :
  ∀ k_file fetched0,
  (write_chunks cfg rt tot collected starts k_file fetched0).2
  = negb (forallb (λ i, forallb (formattable rt) (chunk_at cfg collected i).2) starts).
Proof.
  induction starts as [|i rest IH]; intros k_file fetched0; simpl; [done|].
  pose proof (write_file_ok cfg rt tot collected k_file
                (i `div` tweets_per_file cfg + 1)
                (slice i (i + tweets_per_file cfg) collected)
                {| buf := ""; fetched := fetched0 |}) as Hok.
  destruct (write_file _ _ _ _ _ _ _ _) as [[] k|k]; simpl in Hok; rewrite <- Hok; simpl.
  - specialize (IH (S k_file) (fetched k)).
    by destruct (write_chunks _ _ _ _ rest _ _).
  - done.
Qed.

Lemma forallb_perm {A} (f : A → bool) (l1 l2 : list A) :
  l1 ≡ₚ l2 → forallb f l1 = forallb f l2.
Proof.
  induction 1 as [|x l1 l2 _ IH|x y l|l1 l2 l3 _ IH1 _ IH2]; simpl.
  - done.
  - by rewrite IH.
  - by destruct (f x), (f y).
  - by rewrite IH1.
Qed.

Lemma forallb_concat {A} (f : A → bool) (ls : list (list A)) :
  forallb f (concat ls) = forallb (forallb f) ls.
Proof.
  induction ls as [|l ls IH]; simpl; [done|].
  by rewrite forallb_app, IH.
Qed.

Lemma forallb_fmap {A B} (f : B → bool) (g : A → B) (l : list A) :
  forallb f (g <$> l) = forallb (λ x, f (g x)) l.
Proof. induction l as [|x l IH]; simpl; [done|]. f_equal. exact IH. Qed.

Lemma range_negative_step (stop step : Z) : 0 ≤ stop → step < 0 → range 0 stop step = Some [].
Proof.
  intros Hstop Hstep. unfold range.
  destruct (Z.eqb_spec step 0); [lia|].
  destruct (Z.ltb_spec 0 step); [lia|].
  by replace (Z.to_nat (0 - stop)) with 0%nat by lia.
Qed.

(** X13.  File operations succeeding, a pass ends by raising in two
    cases only: the chunk size is zero and there is a post to write, or
    the chunk size is positive and some post carries a timestamp, its
    own or its quoted post's, that does not format.  With a negative
    chunk size it ends normally whatever the timestamps. *)
Theorem pass_raises_on_zero_chunk_size_or_bad_timestamp
    (cfg : Config) (rt : Runtime) (l : list Tweet) :
  raised (_save_to_markdown cfg rt l)
  = if tweets_per_file cfg =? 0 then nonempty l
    else if 0 <? tweets_per_file cfg then negb (forallb (formattable rt) l)
    else false.
Proof.
  destruct l as [|t l].
  { simpl. by destruct (tweets_per_file cfg =? 0), (0 <? tweets_per_file cfg). }
  unfold _save_to_markdown.
  set (sorted := sort_by_timestamp_desc (t :: l)).
  destruct (Z.eqb_spec (tweets_per_file cfg) 0) as [Hzero|Hnz].
  { by rewrite Hzero. }
  destruct (Z.ltb_spec 0 (tweets_per_file cfg)) as [Hpos|Hneg].
  - unfold range.
    destruct (Z.eqb_spec (tweets_per_file cfg) 0); [done|].
    destruct (Z.ltb_spec 0 (tweets_per_file cfg)); [|lia].
    pose proof (write_chunks_raised cfg rt (totals_of sorted) sorted
                  (range_up (Z.to_nat (Z.of_nat (length sorted) - 0)) 0
                     (Z.of_nat (length sorted)) (tweets_per_file cfg)) 0 0) as Hr.
    destruct (write_chunks _ _ _ _ _ _ _) as [written r]. simpl in *. rewrite Hr.
    f_equal.
    change (formattable rt t && forallb (formattable rt) l)
      with (forallb (formattable rt) (t :: l)).
    rewrite <- (forallb_perm (formattable rt) sorted (t :: l) (sort_perm (t :: l))).
    transitivity (forallb (formattable rt)
                    (concat ((λ j, slice j (j + tweets_per_file cfg) sorted)
                             <$> range_up (Z.to_nat (Z.of_nat (length sorted) - 0)) 0
                                   (Z.of_nat (length sorted)) (tweets_per_file cfg)))).
    + by rewrite forallb_concat, forallb_fmap.
    + by rewrite (range_up_concat sorted _ _ Hpos 0) by lia.
  - rewrite range_negative_step by lia. done.
Qed.

Lemma save_no_files (cfg : Config) (rt : Runtime) (l : list Tweet) :
  tweets_per_file cfg ≤ 0 → files (_save_to_markdown cfg rt l) = [].
Proof.
  intros Hn. destruct l as [|t l]; [done|]. unfold _save_to_markdown.
  destruct (Z.eq_dec (tweets_per_file cfg) 0) as [Hzero|Hnz].
  - by rewrite Hzero.
  - rewrite range_negative_step by lia. done.
Qed.

(** X14.  With a chunk size of zero or below, a pass over a list that
    is not empty writes no file at all; it has sorted the list none
    the less. *)
Theorem no_file_without_a_positive_chunk_size
    (cfg : Config) (rt : Runtime) (l : list Tweet) :
  tweets_per_file cfg ≤ 0 →
  files (_save_to_markdown cfg rt l) = []
  ∧ collected_after (_save_to_markdown cfg rt l) = sort_by_timestamp_desc l.
Proof.
  intros Hn. split; [by apply save_no_files | apply save_collected_after].
Qed.

Lemma no_file_without_a_positive_chunk_size_witness :
  files (_save_to_markdown
           {| output_dir := "out"; tweets_per_file := -5; include_images := true;
              scroll_retries := 3; download_images_locally := false |}
           (runtime_at "2025-03-01 10:00:00") three_posts) = [].
Proof.
  refine (proj1 (no_file_without_a_positive_chunk_size _ _ _ _)). simpl. lia.
Defined.

(** ** Checkpoints of a run *)

Section Checkpoints.
Context (cfg : Config).

Lemma iteration_pass (o : Observation) (st : LoopState) :
  match iteration cfg o st with
  | Continue st' (Some pass) => raised pass = false ∧ at_multiple_of_500 pass st'
  | Crashed st' pass => raised pass = true ∧ at_multiple_of_500 pass st'
  | _ => True
  end.
Proof.
  unfold iteration.
  case_bool_decide; [done|].
  destruct (track_unique _ _ _ _) as [[seen collected] new_count].
  destruct ((new_count =? 0) && _); [done|].
  case_bool_decide; [done|].
  destruct ((Z.of_nat (length collected) `mod` 500 =? 0) && _) eqn:Hsave; [|done].
  apply andb_true_iff in Hsave as [Hmod%Z.eqb_eq Hpos%Z.ltb_lt].
  assert (at_multiple_of_500 (_save_to_markdown cfg (runtime o) collected)
            {| tweets_seen := seen;
               tweets_collected := collected_after (_save_to_markdown cfg (runtime o) collected);
               no_new_tweets_count :=
                 (if scroll_height o =? last_height st
                  then (if new_count =? 0 then no_new_tweets_count st + 1 else 0) + 1
                  else if new_count =? 0 then no_new_tweets_count st + 1 else 0);
               last_height := scroll_height o |}) as Hat.
  { unfold at_multiple_of_500. simpl.
    by rewrite save_collected_after, (Permutation_length (sort_perm collected)). }
  by destruct (raised _) eqn:Hr.
Qed.

Lemma iteration_length (o : Observation) (st : LoopState) :
  (length (tweets_collected st)
   ≤ length (tweets_collected (step_state (iteration cfg o st))))%nat.
Proof.
  unfold iteration.
  case_bool_decide; [done|].
  destruct (track_unique_fresh (_extract_tweets_from_page (articles o))
              (tweets_seen st) (tweets_collected st) 0) as (fresh & -> & _).
  destruct ((_ =? 0) && _); simpl; [rewrite length_app; lia|].
  case_bool_decide; simpl; [rewrite length_app; lia|].
  destruct ((_ =? 0) && _); simpl; [|rewrite length_app; lia].
  assert (length (collected_after (_save_to_markdown cfg (runtime o)
                                     (tweets_collected st ++ fresh)))
          = length (tweets_collected st ++ fresh)) as Hlen.
  { by rewrite save_collected_after, (Permutation_length (sort_perm _)). }
  destruct (raised _); simpl; rewrite Hlen, length_app; lia.
Qed.

Lemma collect_from_length (page : list Observation) :
  ∀ st, (length (tweets_collected st)
         ≤ length (tweets_collected (state (collect_from cfg page st))))%nat.
Proof.
  induction page as [|o later IH]; intros st; simpl; [done|].
  pose proof (iteration_length o st) as Hstep.
  destruct (iteration cfg o st) as [st' cp|st'|st' pass|st']; simpl in *; [|done..].
  specialize (IH st'). lia.
Qed.

Lemma collect_from_checkpoints (page : list Observation) :
  ∀ st,
  Forall (λ pass,
            0 < Z.of_nat (length (collected_after pass))
            ∧ Z.of_nat (length (collected_after pass)) `mod` 500 = 0
            ∧ (length (collected_after pass)
               ≤ length (tweets_collected (state (collect_from cfg page st))))%nat)
         (checkpoints (collect_from cfg page st)).
Proof.
  induction page as [|o later IH]; intros st; simpl; [constructor|].
  pose proof (iteration_pass o st) as Hpass.
  destruct (iteration cfg o st) as [st' [pass|]|st'|st' pass|st']; simpl.
  - destruct Hpass as (Hok & Hperm & Hpos & Hmod).
    constructor; [|apply IH].
    rewrite (Permutation_length Hperm). split; [done|]. split; [done|].
    apply collect_from_length.
  - apply IH.
  - constructor.
  - destruct Hpass as (Hr & Hperm & Hpos & Hmod).
    constructor; [|constructor]. rewrite (Permutation_length Hperm). done.
  - constructor.
Qed.

End Checkpoints.

(** X15.  Every save made inside the loop holds a positive multiple of
    500 posts, never more than the run ends with, so that a run that
    collects fewer than 500 posts saves nothing before the loop
    ends. *)
Theorem checkpoints_hold_a_positive_multiple_of_500
    (cfg : Config) (page : list Observation) :
  let r := _collect_all_bookmarks cfg page in
  (∀ pass, pass ∈ checkpoints r →
     0 < Z.of_nat (length (collected_after pass))
     ∧ Z.of_nat (length (collected_after pass)) `mod` 500 = 0
     ∧ (length (collected_after pass) ≤ length (tweets_collected (state r)))%nat)
  ∧ ((length (tweets_collected (state r)) < 500)%nat → checkpoints r = []).
Proof.
  simpl. unfold _collect_all_bookmarks.
  pose proof (collect_from_checkpoints cfg page initial) as Hall.
  rewrite Forall_forall in Hall. split; [exact Hall|].
  intros Hfew.
  destruct (checkpoints (collect_from cfg page initial)) as [|pass rest] eqn:Hc; [done|].
  destruct (Hall pass) as (Hpos & Hmod & Hle); [left|].
  apply Z.mod_divide in Hmod; [|done]. destruct Hmod as [q Hq]. lia.
Qed.

(** ** The files of a pass: how many, and under which names *)

Lemma range_up_length (stop step : Z) (fuel : nat) :
  0 < step →
  ∀ i, stop - i ≤ Z.of_nat fuel →
  Z.of_nat (length (range_up fuel i stop step)) = (Z.max 0 (stop - i) + step - 1) / step.
Proof.
  intros Hstep. induction fuel as [|fuel IH]; intros i Hfuel; simpl.
  - rewrite Z.max_l by lia. symmetry. apply Z.div_small. lia.
  - destruct (Z.ltb_spec i stop) as [Hlt|Hge].
    + simpl length. rewrite Nat2Z.inj_succ, IH by lia.
      rewrite (Z.max_r 0 (stop - i)) by lia.
      destruct (Z.le_gt_cases step (stop - i)) as [Hfull|Hshort].
      * rewrite Z.max_r by lia.
        replace (stop - i + step - 1) with (stop - (i + step) + step - 1 + 1 * step) by lia.
        rewrite Z.div_add by lia. lia.
      * rewrite Z.max_l by lia. rewrite (Z.div_small (0 + step - 1)) by lia.
        apply (Z.div_unique _ _ 1 (stop - i - 1)); lia.
    + rewrite Z.max_l by lia. symmetry. apply Z.div_small. lia.
Qed.

(** X16.  A pass that ends normally with a positive chunk size writes
    as many files as the length of the list divided by the chunk size,
    rounded up. *)
Theorem number_of_files_is_the_rounded_up_quotient
    (cfg : Config) (rt : Runtime) (l : list Tweet) :
  0 < tweets_per_file cfg →
  raised (_save_to_markdown cfg rt l) = false →
  Z.of_nat (length (files (_save_to_markdown cfg rt l)))
  = (Z.of_nat (length l) + tweets_per_file cfg - 1) / tweets_per_file cfg.
Proof.
  intros Hpos Hr. destruct l as [|t l].
  { simpl. symmetry. apply Z.div_small. lia. }
  assert (range 0 (Z.of_nat (length (sort_by_timestamp_desc (t :: l)))) (tweets_per_file cfg)
          = Some (range_up (Z.to_nat (Z.of_nat (length (sort_by_timestamp_desc (t :: l))) - 0))
                    0 (Z.of_nat (length (sort_by_timestamp_desc (t :: l))))
                    (tweets_per_file cfg))) as Hrange.
  { unfold range. destruct (Z.eqb_spec (tweets_per_file cfg) 0); [lia|].
    by destruct (Z.ltb_spec 0 (tweets_per_file cfg)); [|lia]. }
  pose proof (save_writes_one_file_per_chunk cfg rt (t :: l) _ ltac:(done) Hrange Hr)
    as Hnames.
  apply (f_equal length) in Hnames. rewrite !length_fmap in Hnames.
  rewrite Hnames, range_up_length by lia.
  rewrite (Permutation_length (sort_perm (t :: l))).
  rewrite Z.max_r by lia. by rewrite Z.sub_0_r.
Qed.

Lemma number_of_files_is_the_rounded_up_quotient_witness :
  length (files (_save_to_markdown two_per_file (runtime_at "2025-03-01 10:00:00")
                   three_posts)) = 2%nat.
Proof.
  apply Nat2Z.inj.
  rewrite (number_of_files_is_the_rounded_up_quotient two_per_file
             (runtime_at "2025-03-01 10:00:00") three_posts); reflexivity.
Defined.

Lemma str_app_inv_l (a b c : string) : a +:+ b = a +:+ c → b = c.
Proof.
  induction a as [|d a IH]; [by rewrite !str_app_nil_l|].
  rewrite !str_app_cons. intros [= ?]. auto.
Qed.

Lemma take_until_cons (stop : ascii → bool) (c : ascii) (s : string) :
  take_until stop (String c s) = if stop c then "" else String c (take_until stop s).
Proof. reflexivity. Qed.

Lemma digits_of_uint (d : Decimal.uint) (c : ascii) (r : string) :
  not_digit c = true →
  take_until not_digit (NilEmpty.string_of_uint d +:+ String c r)
  = NilEmpty.string_of_uint d.
Proof.
  intros Hc.
  induction d as [|d IH|d IH|d IH|d IH|d IH|d IH|d IH|d IH|d IH|d IH];
    cbn [NilEmpty.string_of_uint];
    [rewrite str_app_nil_l, take_until_cons; by rewrite Hc
    |rewrite str_app_cons, take_until_cons;
     match goal with |- context [not_digit ?x] => change (not_digit x) with false end;
     cbv iota; by rewrite IH ..].
Qed.

Lemma digits_of_zeros (k : nat) (s : string) :
  take_until not_digit (Str.zeros k +:+ s) = Str.zeros k +:+ take_until not_digit s.
Proof.
  induction k as [|k IH]; cbn [Str.zeros]; [by rewrite !str_app_nil_l|].
  rewrite !str_app_cons, take_until_cons.
  change (not_digit "0") with false. cbv iota. by rewrite IH.
Qed.

Lemma pad3_digits (z : Z) (c : ascii) (r : string) :
  0 ≤ z → not_digit c = true →
  take_until not_digit (Str.pad3 z +:+ String c r) = Str.pad3 z.
Proof.
  intros Hz Hc. unfold Str.pad3. destruct (Z.ltb_spec z 0); [lia|]. cbv zeta.
  rewrite str_app_assoc, digits_of_zeros. unfold Str.of_nat. by rewrite digits_of_uint.
Qed.

Lemma of_uint_zeros (k : nat) (s : string) :
  Nat.of_uint <$> NilEmpty.uint_of_string (Str.zeros k +:+ s)
  = Nat.of_uint <$> NilEmpty.uint_of_string s.
Proof.
  induction k as [|k IH]; cbn [Str.zeros]; [by rewrite str_app_nil_l|].
  rewrite str_app_cons, <- IH. cbn [NilEmpty.uint_of_string].
  by destruct (NilEmpty.uint_of_string (Str.zeros k +:+ s)).
Qed.

Lemma pad3_value (z : Z) :
  0 ≤ z → Nat.of_uint <$> NilEmpty.uint_of_string (Str.pad3 z) = Some (Z.to_nat z).
Proof.
  intros Hz. unfold Str.pad3. destruct (Z.ltb_spec z 0); [lia|]. cbv zeta.
  rewrite of_uint_zeros. unfold Str.of_nat. rewrite NilEmpty.usu. simpl.
  by rewrite Unsigned.of_to.
Qed.

Lemma pad3_inj (a b : Z) (c1 c2 : ascii) (r1 r2 : string) :
  0 ≤ a → 0 ≤ b → not_digit c1 = true → not_digit c2 = true →
  Str.pad3 a +:+ String c1 r1 = Str.pad3 b +:+ String c2 r2 → a = b.
Proof.
  intros Ha Hb H1 H2 Heq.
  apply (f_equal (take_until not_digit)) in Heq.
  rewrite !pad3_digits in Heq by done.
  apply (f_equal (λ s, Nat.of_uint <$> NilEmpty.uint_of_string s)) in Heq.
  simpl in Heq. rewrite !pad3_value in Heq by done.
  injection Heq. lia.
Qed.

Lemma chunk_filename_shape (file_number : Z) (chunk : list Tweet) :
  ∃ c r, not_digit c = true
    ∧ chunk_filename file_number chunk
      = "bookmarks_" +:+ Str.pad3 file_number +:+ String c r.
Proof.
  unfold chunk_filename. destruct (head chunk) as [first_tweet|].
  - destruct (last chunk) as [last_tweet|].
    + by exists "_"%char, (date_of (timestamp first_tweet) +:+ "_to_"
                          +:+ date_of (timestamp last_tweet) +:+ ".md").
    + by exists "."%char, "md".
  - by exists "."%char, "md".
Qed.

Lemma chunk_filename_inj (a b : Z) (ca cb : list Tweet) :
  0 ≤ a → 0 ≤ b → chunk_filename a ca = chunk_filename b cb → a = b.
Proof.
  intros Ha Hb.
  destruct (chunk_filename_shape a ca) as (c1 & r1 & H1 & ->).
  destruct (chunk_filename_shape b cb) as (c2 & r2 & H2 & ->).
  intros Heq%str_app_inv_l. exact (pad3_inj a b c1 c2 r1 r2 Ha Hb H1 H2 Heq).
Qed.

Lemma range_up_multiples (stop step : Z) (fuel : nat) (j : Z) :
  j ∈ range_up fuel 0 stop step → ∃ k : nat, j = Z.of_nat k * step.
Proof.
  intros [k Hk]%list_elem_of_lookup. apply range_up_lookup in Hk as [-> _].
  exists k. lia.
Qed.

Lemma range_up_NoDup (stop step : Z) (fuel : nat) (i : Z) :
  0 < step → NoDup (range_up fuel i stop step).
Proof.
  intros Hstep. apply NoDup_alt. intros a b j Ha Hb.
  apply range_up_lookup in Ha as [-> _]. apply range_up_lookup in Hb as [Hb _]. nia.
Qed.

Lemma write_chunks_paths (cfg : Config) (rt : Runtime) (tot : Totals)
    (collected : list Tweet) (starts : list Z) :
  ∀ k_file fetched0,
  ∃ m, (write_chunks cfg rt tot collected starts k_file fetched0).1.*1
       = take m ((λ i, output_dir cfg +:+ "/"
                       +:+ chunk_filename (chunk_at cfg collected i).1
                                          (chunk_at cfg collected i).2) <$> starts).
Proof.
  induction starts as [|i rest IH]; intros k_file fetched0; simpl.
  - by exists 0%nat.
  - destruct (write_file _ _ _ _ _ _ _ _) as [[] k|k].
    + destruct (IH (S k_file) (fetched k)) as [m Hm].
      destruct (write_chunks _ _ _ _ rest _ _) as [more r].
      exists (S m). simpl in *. f_equal. exact Hm.
    + exists 1%nat. simpl. by rewrite take_0.
Qed.

(** X17.  Within one pass no path is written twice: the chunks have
    different file numbers, and two different file numbers never give
    one file name, whatever the dates around them and however many
    digits the numbers take. *)
Theorem pass_writes_no_path_twice (cfg : Config) (rt : Runtime) (l : list Tweet) :
  NoDup (files (_save_to_markdown cfg rt l)).*1.
Proof.
  destruct (Z.le_gt_cases (tweets_per_file cfg) 0) as [Hle|Hpos].
  { rewrite save_no_files by done. constructor. }
  destruct l as [|t l]; [constructor|]. unfold _save_to_markdown.
  set (sorted := sort_by_timestamp_desc (t :: l)).
  unfold range. destruct (Z.eqb_spec (tweets_per_file cfg) 0); [lia|].
  destruct (Z.ltb_spec 0 (tweets_per_file cfg)); [|lia].
  destruct (write_chunks_paths cfg rt (totals_of sorted) sorted
              (range_up (Z.to_nat (Z.of_nat (length sorted) - 0)) 0
                 (Z.of_nat (length sorted)) (tweets_per_file cfg)) 0 0) as [m Hm].
  destruct (write_chunks _ _ _ _ _ _ _) as [written r]. simpl in Hm |- *. rewrite Hm.
  eapply sublist_NoDup; [|apply sublist_take].
  apply NoDup_fmap_2_strong; [|by apply range_up_NoDup].
  intros x y Hx Hy Heq.
  apply str_app_inv_l, str_app_inv_l in Heq.
  apply range_up_multiples in Hx as [a ->]. apply range_up_multiples in Hy as [b ->].
  rewrite !Z.div_mul in Heq by lia.
  apply chunk_filename_inj in Heq; lia.
Qed.

(** ** What the files of a pass hold *)

(** Two descriptions of one computation speak of the same text. *)
Lemma emits_same (m : M unit) (ok ok' : bool) (d d' : nat)
    (lines lines' : nat → string → Prop) :
  emits m ok d lines → emits m ok' d' lines' → emits m ok d lines'.
Proof.
  intros H1 H2 k. destruct (H1 k) as (out1 & E1 & _), (H2 k) as (out2 & E2 & Hl2).
  exists out1. split; [done|].
  assert (out1 = out2) as ->; [|done].
  rewrite E1 in E2. destruct ok, ok'; simpl in E2; try discriminate;
    injection E2 as E2 _; by apply str_app_inv_l in E2.
Qed.

Lemma emits_tweet_lines (cfg : Config) (rt : Runtime) (t : Tweet) :
  emits (_write_tweet_to_markdown cfg rt t)
        (formattable rt t) (downloads_of cfg rt t)
        (λ _ l, l = heading t ∨ (formattable rt t = true ∧ l = text_line t)).
Proof.
  eapply emits_same; [apply emits_tweet|].
  unfold _write_tweet_to_markdown. cbv zeta.
  eapply emits_weaken.
  - eapply emits_bind; [apply emits_write|].
    eapply emits_bind; [apply emits_stamp|].
    eapply emits_bind; [apply emits_write|].
    eapply emits_bind.
    { apply emits_when. eapply emits_bind; [apply emits_write | apply emits_image_loop]. }
    eapply emits_bind.
    { apply emits_when. eapply emits_bind; [apply emits_write|].
      eapply emits_bind; [apply emits_for_each_writes | apply emits_write]. }
    eapply emits_bind; [apply emits_quoted_block | apply emits_write].
  - reflexivity.
  - reflexivity.
  - intros f l [->|[Hfmt ->]]; [by left|].
    apply andb_true_iff in Hfmt as [Hfmt _].
    right. split; [done|]. right. split; [done|]. by left.
Qed.

Lemma emits_for_each {A} (body : A → M unit) (ok : A → bool) (d : A → nat)
    (lines : A → string → Prop) (l : list A) :
  (∀ x, emits (body x) (ok x) (d x) (λ _ s, lines x s)) →
  ∃ n, emits (for_each l body) (forallb ok l) n
             (λ _ s, forallb ok l = true ∧ ∃ x, x ∈ l ∧ lines x s).
Proof.
  intros Hbody. induction l as [|x l [n IH]]; simpl.
  - exists 0%nat. eapply emits_weaken; [apply emits_ret|done..|].
    intros _ s (_ & x & Hx & _). by apply elem_of_nil in Hx.
  - eexists. eapply emits_weaken; [eapply emits_bind; [apply Hbody | exact IH]|done..|].
    intros f s ([Hx Hl]%andb_true_iff & y & Hy & Hline).
    apply elem_of_cons in Hy as [->|Hy]; [by left|].
    right. split; [done|]. split; [done|]. by exists y.
Qed.

Lemma emits_write_file (cfg : Config) (rt : Runtime) (tot : Totals) (collected : list Tweet)
    (k_file : nat) (file_number : Z) (chunk : list Tweet) :
  ∃ n, emits (write_file cfg rt tot collected k_file file_number chunk)
             (forallb (formattable rt) chunk) n
             (λ _ s, (file_number = 1 ∧ collected ≠ [] ∧ s = total_line (total_tweets tot))
                     ∨ (forallb (formattable rt) chunk = true
                        ∧ ∃ t, t ∈ chunk ∧ (s = heading t ∨ s = text_line t))).
Proof.
  destruct (emits_for_each (_write_tweet_to_markdown cfg rt) (formattable rt)
              (downloads_of cfg rt)
              (λ t s, s = heading t ∨ (formattable rt t = true ∧ s = text_line t))
              chunk (emits_tweet_lines cfg rt)) as [n Hn].
  eexists. unfold write_file. eapply emits_weaken.
  - eapply emits_bind; [apply emits_write|].
    eapply emits_bind; [apply emits_write|].
    eapply emits_bind.
    { apply emits_when. eapply emits_bind; [apply emits_write | apply emits_write]. }
    eapply emits_bind; [apply emits_write|].
    eapply emits_bind; [apply emits_write | exact Hn].
  - by destruct (bool_decide (file_number = 1) && nonempty collected).
  - reflexivity.
  - intros f s [(Hone & Hne & ->)|(Hall & t & Ht & Hline)].
    + right. split; [done|]. right. split; [done|]. left. split.
      * rewrite bool_decide_true by done. by destruct collected.
      * by left.
    + right. split; [done|]. right. split; [done|]. right.
      split; [by destruct (bool_decide (file_number = 1) && nonempty collected)|].
      right. split; [done|]. right. split; [done|]. split; [done|].
      exists t. split; [done|]. destruct Hline as [->| ->]; [by left|].
      right. split; [|done]. rewrite forallb_forall in Hall. apply Hall.
      by apply list_elem_of_In.
Qed.

Lemma write_chunks_contents (cfg : Config) (rt : Runtime) (tot : Totals)
    (collected : list Tweet) (starts : list Z) :
  ∀ k_file fetched0 written,
  write_chunks cfg rt tot collected starts k_file fetched0 = (written, false) →
  ∀ (k : nat) i, starts !! k = Some i →
  ∃ content,
    written !! k
    = Some (output_dir cfg +:+ "/"
            +:+ chunk_filename (chunk_at cfg collected i).1 (chunk_at cfg collected i).2,
            content)
    ∧ ((chunk_at cfg collected i).1 = 1 → collected ≠ [] →
       occurs (total_line (total_tweets tot)) content)
    ∧ ∀ t, t ∈ (chunk_at cfg collected i).2 →
        occurs (heading t) content ∧ occurs (text_line t) content.
Proof.
  induction starts as [|j rest IH]; intros k_file fetched0 written Hw k i Hi; [done|].
  cbn [write_chunks] in Hw.
  destruct (chunk_at cfg collected j) as [file_number chunk] eqn:Hc.
  destruct (emits_write_file cfg rt tot collected k_file file_number chunk) as [n Hemit].
  destruct (Hemit {| buf := ""; fetched := fetched0 |}) as (out & Heq & Hlines).
  rewrite Heq in Hw. simpl in Hw.
  destruct (forallb (formattable rt) chunk) eqn:Hall; simpl in Hw; [|done].
  destruct (write_chunks cfg rt tot collected rest (S k_file) (fetched0 + n))
    as [more r] eqn:Hrest.
  injection Hw as <- ->.
  destruct k as [|k]; simpl in Hi.
  - injection Hi as <-. exists out. rewrite Hc. simpl. split; [done|]. split.
    + intros Hone Hne. apply Hlines. by left.
    + intros t Ht. split; apply Hlines; right; (split; [done|]); exists t; auto.
  - exact (IH _ _ _ Hrest k i Hi).
Qed.

Lemma elem_of_concat {A} (x : A) (ls : list (list A)) :
  x ∈ concat ls → ∃ l, l ∈ ls ∧ x ∈ l.
Proof.
  induction ls as [|l ls IH]; simpl; [by intros ?%elem_of_nil|].
  intros [Hx|Hx]%elem_of_app.
  - exists l. split; [left | done].
  - destruct (IH Hx) as (l' & Hl' & Hx'). exists l'. split; [by right | done].
Qed.

(** X18.  A pass that ends normally with a positive chunk size leaves
    every post of the list in one of its files, with its heading and
    its text; and the first file it writes states the number of posts
    of the whole list. *)
Theorem every_post_is_written_to_a_file
    (cfg : Config) (rt : Runtime) (l : list Tweet) :
  0 < tweets_per_file cfg →
  raised (_save_to_markdown cfg rt l) = false →
  (∀ t, t ∈ l →
     ∃ path content, (path, content) ∈ files (_save_to_markdown cfg rt l)
       ∧ occurs (heading t) content ∧ occurs (text_line t) content)
  ∧ (l ≠ [] →
     ∃ path content, head (files (_save_to_markdown cfg rt l)) = Some (path, content)
       ∧ occurs (total_line (length l)) content).
Proof.
  intros Hpos Hr. destruct l as [|t0 l].
  { split; [by intros t ?%elem_of_nil | done]. }
  revert Hr. unfold _save_to_markdown.
  pose proof (sort_perm (t0 :: l)) as Hperm.
  set (sorted := sort_by_timestamp_desc (t0 :: l)) in *.
  assert (sorted ≠ []) as Hne.
  { intros Hnil. rewrite Hnil in Hperm. by apply Permutation_nil_cons in Hperm. }
  unfold range. destruct (Z.eqb_spec (tweets_per_file cfg) 0); [lia|].
  destruct (Z.ltb_spec 0 (tweets_per_file cfg)); [|lia].
  set (starts := range_up (Z.to_nat (Z.of_nat (length sorted) - 0)) 0
                   (Z.of_nat (length sorted)) (tweets_per_file cfg)).
  pose proof (write_chunks_contents cfg rt (totals_of sorted) sorted starts 0 0) as Hcontents.
  destruct (write_chunks cfg rt (totals_of sorted) sorted starts 0 0) as [written r].
  cbn [raised files]. intros ->. specialize (Hcontents written eq_refl).
  split.
  - intros t Ht. rewrite <- Hperm in Ht.
    rewrite <- (drop_0 sorted) in Ht.
    change 0%nat with (Z.to_nat 0) in Ht.
    rewrite <- (range_up_concat sorted (tweets_per_file cfg)
                  (Z.to_nat (Z.of_nat (length sorted) - 0)) Hpos 0) in Ht by lia.
    apply elem_of_concat in Ht as (chunk & Hchunk & Ht).
    apply list_elem_of_fmap in Hchunk as (i & -> & Hi).
    apply list_elem_of_lookup in Hi as [k Hk].
    destruct (Hcontents k i Hk) as (content & Hin & _ & Hposts).
    eexists _, content. split; [by eapply list_elem_of_lookup_2|]. by apply Hposts.
  - intros _.
    assert (starts !! 0%nat = Some 0) as Hstarts.
    { unfold starts. destruct sorted as [|u sorted']; [done|].
      by replace (Z.to_nat (Z.of_nat (length (u :: sorted')) - 0))
        with (S (length sorted')) by (simpl; lia). }
    destruct (Hcontents 0%nat 0 Hstarts) as (content & Hin & Htotal & _).
    eexists _, content. rewrite head_lookup. split; [exact Hin|].
    replace (length (t0 :: l)) with (total_tweets (totals_of sorted))
      by (simpl; apply (Permutation_length Hperm)).
    apply Htotal; [|done]. simpl. rewrite Z.div_0_l by lia. done.
Qed.

Lemma every_post_is_written_to_a_file_witness :
  ∃ path content,
    (path, content) ∈ files (_save_to_markdown two_per_file
                               (runtime_at "2025-03-01 10:00:00") three_posts)
    ∧ occurs (heading (sample_tweet "2" "2024-01-01T09:00:00Z")) content.
Proof.
  destruct (every_post_is_written_to_a_file two_per_file
              (runtime_at "2025-03-01 10:00:00") three_posts) as [Hall _];
    [reflexivity | reflexivity |].
  destruct (Hall (sample_tweet "2" "2024-01-01T09:00:00Z")) as (path & content & Hin & Hh & _).
  - unfold three_posts. right. left.
  - by exists path, content.
Defined.
